(** * The RLP codec of pyrlp ([rlp/codec.py]), embedded in Rocq

    The file follows [rlp/codec.py] function by function.  Python integers
    are [Z], byte strings are lists of [byte], exceptions are values of
    [exn] carried by the error monad [result].  The recursive decoder
    ([consume_payload], a [while] loop that calls itself on every child) is
    written with a fuel argument; the fuel computed from the input length is
    proved sufficient, so that [consume_item] is a total function. *)

From Stdlib Require Import ZArith List Lia Bool String.
From coqutil Require Import Byte.
Import ListNotations.
Local Open Scope Z_scope.
Local Open Scope list_scope.
Set Warnings "-register-all".

(** ** Byte strings and the Python operations on them *)

Definition bytes := list byte.

Definition py_len {A : Type} (l : list A) : Z := Z.of_nat (List.length l).

(** Exceptions raised by the codec.  The constructors of [encoding_error]
    and [decoding_error] stand for the message texts of the source. *)
Inductive encoding_error :=
| CannotEncodeType   (* 'Cannot encode object of type {0}' *)
| ItemTooBig.        (* 'Item too big to encode' *)

Inductive decoding_error :=
| ShortStringSingleByte  (* 'Encoded as short string although single byte was possible' *)
| LengthStartsWithZero   (* 'Length starts with zero bytes' *)
| LongStringForShort     (* 'Long string prefix used for short string' *)
| LongListForShort       (* 'Long list prefix used for short list' *)
| ListLengthTooSmall     (* 'List length prefix announced a too small length' *)
| StringTooShort         (* 'RLP string too short' *)
| SuperfluousBytes (n : Z). (* 'RLP string ends with {} superfluous bytes' *)

Inductive exn :=
| IndexError
| ValueError
| TypeError
| RecursionError
| EncodingError (e : encoding_error)
| DecodingError (e : decoding_error).

Inductive result (A : Type) :=
| Ok (a : A)
| Raise (e : exn).
Arguments Ok {A} a.
Arguments Raise {A} e.

Definition bind {A B : Type} (c : result A) (k : A -> result B) : result B :=
  match c with
  | Ok a => k a
  | Raise e => Raise e
  end.

Notation "x <- c ;; k" := (bind c (fun x => k))
  (at level 61, c at next level, right associativity).
Notation "' p <- c ;; k" := (bind c (fun x => match x with p => k end))
  (at level 61, p pattern, c at next level, right associativity).

(** [l[i]]: a negative index counts from the end, an index outside the
    sequence raises [IndexError]. *)
Definition py_index {A : Type} (l : list A) (i : Z) : result A :=
  let n := py_len l in
  let j := if i <? 0 then i + n else i in
  if (j <? 0) || (n <=? j) then Raise IndexError
  else match nth_error l (Z.to_nat j) with
       | Some x => Ok x
       | None => Raise IndexError
       end.

(** [l[a:b]]: both bounds are clamped to the sequence, never an error. *)
Definition py_slice {A : Type} (l : list A) (a b : Z) : list A :=
  let n := py_len l in
  let clamp := fun x => if x <? 0 then Z.max (x + n) 0 else Z.min x n in
  let lo := clamp a in
  let hi := clamp b in
  firstn (Z.to_nat (hi - lo)) (skipn (Z.to_nat lo) l).

(** ** [eth_utils]: big-endian integers

    [big_endian_to_int] is [int.from_bytes(value, 'big')];
    [int_to_big_endian] is
    [value.to_bytes((value.bit_length() + 7) // 8 or 1, 'big')], which the
    codec only applies to non-negative integers. *)

Definition big_endian_to_int (value : bytes) : Z :=
  fold_left (fun acc b => acc * 256 + byte.unsigned b) value 0.

Definition bit_length (value : Z) : Z :=
  if value =? 0 then 0 else Z.log2 (Z.abs value) + 1.

Fixpoint to_bytes_big (size : nat) (value : Z) : bytes :=
  match size with
  | O => []
  | S size' => to_bytes_big size' (value / 256) ++ [byte.of_Z (value mod 256)]
  end.

Definition int_to_big_endian (value : Z) : bytes :=
  let size := (bit_length value + 7) / 8 in
  to_bytes_big (Z.to_nat (if size =? 0 then 1 else size)) value.

(** ** Encoding *)

(** Modelled from the spec: [rlp.utils.ALL_BYTES] is not part of the source
    at hand; it is the table of the 256 one-byte strings, entry [i] being
    the byte [i] (a length below 56 is framed by "one byte [o + length]"). *)
Definition ALL_BYTES : list bytes :=
  map (fun i => [byte.of_Z (Z.of_nat i)]) (seq 0 256).

Definition LONG_LENGTH : Z := 256 ^ 8.

Definition length_prefix (length offset : Z) : result bytes :=
  if length <? 56 then
    py_index ALL_BYTES (offset + length)
  else if length <? LONG_LENGTH then
    let length_string := int_to_big_endian length in
    b <- py_index ALL_BYTES (offset + 56 - 1 + py_len length_string) ;;
    Ok (b ++ length_string)
  else Raise ValueError.

(** The objects [encode_raw] may receive: an [Atomic] (a byte string), a
    sequence that is not a [str], or anything else. *)
Inductive item :=
| Atomic (b : bytes)
| Sequence (xs : list item)
| Other.

(** [b''.join(...)] over encodings computed in order: the first exception
    wins. *)
Fixpoint join (parts : list (result bytes)) : result bytes :=
  match parts with
  | [] => Ok []
  | p :: rest => b <- p ;; r <- join rest ;; Ok (b ++ r)
  end.

(** The last four lines of [encode_raw]: the [ValueError] of
    [length_prefix] becomes an [EncodingError]. *)
Definition add_prefix (payload : bytes) (prefix_offset : Z) : result bytes :=
  match length_prefix (py_len payload) prefix_offset with
  | Ok prefix => Ok (prefix ++ payload)
  | Raise ValueError => Raise (EncodingError ItemTooBig)
  | Raise e => Raise e
  end.

Fixpoint encode_raw (it : item) : result bytes :=
  match it with
  | Atomic b =>
      if match b with
         | [x] => byte.unsigned x <? 128
         | _ => false
         end
      then Ok b
      else add_prefix b 128
  | Sequence xs =>
      payload <- join (map encode_raw xs) ;;
      add_prefix payload 192
  | Other => Raise (EncodingError CannotEncodeType)
  end.

(** ** Decoding *)

Definition SHORT_STRING : Z := 128 + 56.

(** [s == b'\x00'] *)
Definition is_zero_byte (s : bytes) : bool :=
  match s with
  | [x] => byte.unsigned x =? 0
  | _ => false
  end.

(** The [type] component of a prefix: [bytes] or [list]. *)
Inductive payload_type := TBytes | TList.

Definition consume_length_prefix (rlp : bytes) (start : Z)
  : result (bytes * payload_type * Z * Z) :=
  x0 <- py_index rlp start ;;
  let b0 := byte.unsigned x0 in
  if b0 <? 128 then
    Ok ([], TBytes, 1, start)
  else if b0 <? SHORT_STRING then
    if b0 - 128 =? 1 then
      x1 <- py_index rlp (start + 1) ;;
      if byte.unsigned x1 <? 128
      then Raise (DecodingError ShortStringSingleByte)
      else Ok (int_to_big_endian b0, TBytes, b0 - 128, start + 1)
    else Ok (int_to_big_endian b0, TBytes, b0 - 128, start + 1)
  else if b0 <? 192 then
    let ll := b0 - 183 in
    if is_zero_byte (py_slice rlp (start + 1) (start + 2)) then
      Raise (DecodingError LengthStartsWithZero)
    else
      let len_prefix := py_slice rlp (start + 1) (start + 1 + ll) in
      let l := big_endian_to_int len_prefix in
      if l <? 56 then Raise (DecodingError LongStringForShort)
      else Ok (int_to_big_endian b0 ++ len_prefix, TBytes, l, start + 1 + ll)
  else if b0 <? 192 + 56 then
    Ok (int_to_big_endian b0, TList, b0 - 192, start + 1)
  else
    let ll := b0 - 192 - 56 + 1 in
    if is_zero_byte (py_slice rlp (start + 1) (start + 2)) then
      Raise (DecodingError LengthStartsWithZero)
    else
      let len_prefix := py_slice rlp (start + 1) (start + 1 + ll) in
      let l := big_endian_to_int len_prefix in
      if l <? 56 then Raise (DecodingError LongListForShort)
      else Ok (int_to_big_endian b0 ++ len_prefix, TList, l, start + 1 + ll).

(** A decoded item with its encoding: [(item, rlp)] where [item] is a byte
    string or the list of the decoded children. *)
Inductive decoded :=
| DBytes (item : bytes) (rlp : bytes)
| DList (items : list decoded) (rlp : bytes).

(** [item[1]] *)
Definition rlp_of (d : decoded) : bytes :=
  match d with
  | DBytes _ rlp => rlp
  | DList _ rlp => rlp
  end.

(** [consume_payload] and its [while] loop.  [None] means that the fuel
    ran out; see [consume_payload_fuel_enough]. *)
Fixpoint consume_payload_fuel (fuel : nat) (rlp prefix : bytes) (start : Z)
    (type_ : payload_type) (length : Z) {struct fuel}
  : option (result (decoded * Z)) :=
  match type_ with
  | TBytes =>
      let item := py_slice rlp start (start + length) in
      Some (Ok (DBytes item (prefix ++ item), start + length))
  | TList =>
      match fuel with
      | O => None
      | S fuel' => consume_list_loop fuel' rlp (start + length) [] prefix start
      end
  end
with consume_list_loop (fuel : nat) (rlp : bytes) (end_ : Z)
    (items : list decoded) (list_rlp : bytes) (next_item_start : Z)
    {struct fuel}
  : option (result (decoded * Z)) :=
  match fuel with
  | O => None
  | S fuel' =>
      if next_item_start <? end_ then
        match consume_length_prefix rlp next_item_start with
        | Raise e => Some (Raise e)
        | Ok (p, t, l, s) =>
            match consume_payload_fuel fuel' rlp p s t l with
            | None => None
            | Some (Raise e) => Some (Raise e)
            | Some (Ok (item, next)) =>
                consume_list_loop fuel' rlp end_ (items ++ [item])
                  (list_rlp ++ rlp_of item) next
            end
        end
      else if end_ <? next_item_start then
        Some (Raise (DecodingError ListLengthTooSmall))
      else Some (Ok (DList items list_rlp, next_item_start))
  end.

(** Fuel for a decoder that stands at position [pos] of [rlp]: every loop
    iteration and every nested list consumes at least one byte. *)
Definition fuel_at (rlp : bytes) (pos : Z) : nat :=
  Z.to_nat (2 * Z.max 0 (py_len rlp - pos) + 2).

Definition run {A : Type} (r : option (result A)) : result A :=
  match r with
  | Some x => x
  | None => Raise RecursionError
  end.

Definition consume_payload (rlp prefix : bytes) (start : Z)
    (type_ : payload_type) (length : Z) : result (decoded * Z) :=
  run (consume_payload_fuel (fuel_at rlp start) rlp prefix start type_ length).

Definition consume_item (rlp : bytes) (start : Z) : result (decoded * Z) :=
  '(p, t, l, s) <- consume_length_prefix rlp start ;;
  consume_payload rlp p s t l.

(** The per-item encodings split off a decoded item: the encoding of a
    leaf, or the encoding of a list followed by those of its children. *)
Inductive per_item_rlp :=
| RlpLeaf (rlp : bytes)
| RlpNode (rlp : bytes) (subs : list per_item_rlp).

Fixpoint _split_rlp_from_item (item_and_rlp : decoded) : item * per_item_rlp :=
  match item_and_rlp with
  | DBytes item rlp => (Atomic item, RlpLeaf rlp)
  | DList subs rlp =>
      (Sequence (map (fun sub => fst (_split_rlp_from_item sub)) subs),
       RlpNode rlp (map (fun sub => snd (_split_rlp_from_item sub)) subs))
  end.

(** [decode(rlp, sedes=None, strict)]: the input is a byte string and no
    sedes is given, so the bare item is returned. *)
Definition decode (rlp : bytes) (strict : bool) : result item :=
  match consume_item rlp 0 with
  | Raise IndexError => Raise (DecodingError StringTooShort)
  | Raise e => Raise e
  | Ok (item_with_rlp, end_) =>
      if negb (end_ =? py_len rlp) && strict
      then Raise (DecodingError (SuperfluousBytes (py_len rlp - end_)))
      else Ok (fst (_split_rlp_from_item item_with_rlp))
  end.

(** ** Serialization layer: [infer_sedes] and [encode] *)

(** What the codec asks of the class of an instance: whether the class is
    itself a sedes ([is_sedes]: it has [serialize] and [deserialize]),
    whether it is a [collections.Sequence], whether it derives from
    [Serializable]. *)
Record pyclass := {
  cls_is_sedes : bool;
  cls_is_sequence : bool;
  cls_is_serializable : bool
}.

(** The Python values the serialization layer tells apart.  An instance
    carries its elements (what iterating over it yields) and its
    [_cached_rlp] slot. *)
Inductive pyobj :=
| PyNone
| PyBool (b : bool)
| PyInt (n : Z)
| PyBytes (b : bytes)
| PyStr (s : string)
| PyList (xs : list pyobj)
| PyInstance (cls : pyclass) (elements : list pyobj) (_cached_rlp : option bytes).

Inductive sedes :=
| SedesClass (cls : pyclass)
| big_endian_int
| binary
| boolean
| text
| SedesList (elements : list sedes).

(** [map] over a computation that may raise: the first exception wins. *)
Fixpoint collect {A : Type} (parts : list (result A)) : result (list A) :=
  match parts with
  | [] => Ok []
  | p :: rest => x <- p ;; xs <- collect rest ;; Ok (x :: xs)
  end.

Definition isinstance_bool (obj : pyobj) : bool :=
  match obj with PyBool _ => true | _ => false end.

(** [bool] is a subclass of [int]. *)
Definition isinstance_int (obj : pyobj) : bool :=
  match obj with PyBool _ | PyInt _ => true | _ => false end.

Definition int_value (obj : pyobj) : Z :=
  match obj with
  | PyBool b => if b then 1 else 0
  | PyInt n => n
  | _ => 0
  end.

(** [BinaryClass.is_valid_type] *)
Definition is_valid_type (obj : pyobj) : bool :=
  match obj with PyBytes _ => true | _ => false end.

Definition isinstance_str (obj : pyobj) : bool :=
  match obj with PyStr _ => true | _ => false end.

Definition isinstance_Sequence (obj : pyobj) : bool :=
  match obj with
  | PyBytes _ | PyStr _ | PyList _ => true
  | PyInstance cls _ _ => cls_is_sequence cls
  | _ => false
  end.

Definition class_is_sedes (obj : pyobj) : option pyclass :=
  match obj with
  | PyInstance cls _ _ => if cls_is_sedes cls then Some cls else None
  | _ => None
  end.

Fixpoint infer_sedes (obj : pyobj) : result sedes :=
  match class_is_sedes obj with
  | Some cls => Ok (SedesClass cls)
  | None =>
      if negb (isinstance_bool obj) && isinstance_int obj && (0 <=? int_value obj)
      then Ok big_endian_int
      else if is_valid_type obj then Ok binary
      else if negb (isinstance_str obj) && isinstance_Sequence obj then
        match obj with
        | PyList xs | PyInstance _ xs _ =>
            elements <- collect (map infer_sedes xs) ;;
            Ok (SedesList elements)
        | _ => Ok (SedesList [])  (* no other object passes the test *)
        end
      else if isinstance_bool obj then Ok boolean
      else if isinstance_str obj then Ok text
      else Raise TypeError
  end.

Definition isinstance_Serializable (obj : pyobj) : bool :=
  match obj with
  | PyInstance cls _ _ => cls_is_serializable cls
  | _ => false
  end.

Definition get_cached_rlp (obj : pyobj) : option bytes :=
  match obj with
  | PyInstance _ _ cached => cached
  | _ => None
  end.

Definition set_cached_rlp (obj : pyobj) (value : bytes) : pyobj :=
  match obj with
  | PyInstance cls xs _ => PyInstance cls xs (Some value)
  | _ => obj
  end.

(** The object itself handed to [encode_raw]. *)
Fixpoint as_item (obj : pyobj) : item :=
  match obj with
  | PyBytes b => Atomic b
  | PyList xs => Sequence (map as_item xs)
  | PyInstance cls xs _ =>
      if cls_is_sequence cls then Sequence (map as_item xs) else Other
  | _ => Other
  end.

(** [o is None] *)
Definition is_None {A : Type} (o : option A) : bool :=
  match o with
  | None => true
  | Some _ => false
  end.

Section Encode.

(** The sedes objects are external to the codec: [serialize s obj] is
    [s.serialize(obj)], [truth s] the truth value of [s] in [if sedes:]. *)
Variable serialize : sedes -> pyobj -> result item.
Variable truth : sedes -> bool.

Definition serialized (obj : pyobj) (sedes_ : option sedes)
    (infer_serializer : bool) : result item :=
  match sedes_ with
  | Some s =>
      if truth s then serialize s obj
      else if infer_serializer then s' <- infer_sedes obj ;; serialize s' obj
      else Ok (as_item obj)
  | None =>
      if infer_serializer then s' <- infer_sedes obj ;; serialize s' obj
      else Ok (as_item obj)
  end.

(** Lines 60 to 70 of [encode]: serialize, encode, store the result when
    [really_cache] holds.  The result comes with the object as the call
    leaves it ([_cached_rlp] is the only attribute written). *)
Definition encode_item (obj : pyobj) (sedes_ : option sedes)
    (infer_serializer really_cache : bool) : result bytes * pyobj :=
  match it <- serialized obj sedes_ infer_serializer ;; encode_raw it with
  | Ok r => (Ok r, if really_cache then set_cached_rlp obj r else obj)
  | Raise e => (Raise e, obj)
  end.

Definition encode (obj : pyobj) (sedes_ : option sedes)
    (infer_serializer cache : bool) : result bytes * pyobj :=
  if isinstance_Serializable obj then
    match is_None sedes_, get_cached_rlp obj with
    | true, Some (x :: c) => (Ok (x :: c), obj)
    | _, _ => encode_item obj sedes_ infer_serializer (cache && is_None sedes_)
    end
  else encode_item obj sedes_ infer_serializer false.

End Encode.

(** ** Attaching the encodings to a deserialized object *)

(** The second component of [_split_rlp_from_item] as Python holds it: a
    byte string for a leaf; for a list, the Python list
    [[rlp, sub_rlp_1, ...]]. *)
Inductive split_rlp :=
| SplitBytes (rlp : bytes)
| SplitList (entries : list split_rlp).

Fixpoint rlp_items (r : per_item_rlp) : split_rlp :=
  match r with
  | RlpLeaf rlp => SplitBytes rlp
  | RlpNode rlp subs => SplitList (SplitBytes rlp :: map rlp_items subs)
  end.

(** What [_apply_rlp_cache] asks of an object: whether it has the
    attribute [_cached_rlp] and what the attribute holds, whether
    [is_sequence] holds of it, and what iterating over it yields.

    Modelled from the spec: [rlp.sedes.lists.is_sequence] is not part of
    the source at hand; "the current decoded node is a sequence" is a
    property of the object, recorded in [is_sequence]. *)
Inductive cobj :=
| CObj (hasattr_cached_rlp : bool) (cached_rlp : option split_rlp)
       (is_sequence : bool) (elements : list cobj).

Definition is_sequence (obj : cobj) : bool :=
  match obj with CObj _ _ seq _ => seq end.

(** The two ways [split_rlp.pop(0)] fails. *)
Inductive pop_error :=
| PopFromEmptyList   (* IndexError: pop from empty list *)
| BytesHasNoPop.     (* AttributeError: 'bytes' object has no attribute 'pop' *)

Inductive outcome (A : Type) :=
| Done (a : A)
| Fails (e : pop_error).
Arguments Done {A} a.
Arguments Fails {A} e.

(** [split_rlp.pop(0)]: the first entry and the list it leaves. *)
Definition pop0 (split : split_rlp) : outcome (split_rlp * split_rlp) :=
  match split with
  | SplitBytes _ => Fails BytesHasNoPop
  | SplitList [] => Fails PopFromEmptyList
  | SplitList (first :: rest) => Done (first, SplitList rest)
  end.

(** The [for sub in obj] loop of [_apply_rlp_cache]; [apply] is the
    function itself.  The list [split] is shared with the calls on the
    elements that are not sequences, so it is threaded through them; an
    element that is a sequence works on the entry popped for it. *)
Fixpoint for_sub (apply : cobj -> split_rlp -> outcome (cobj * split_rlp))
    (subs : list cobj) (split : split_rlp) : outcome (list cobj * split_rlp) :=
  match subs with
  | [] => Done ([], split)
  | sub :: more =>
      if is_sequence sub then
        match pop0 split with
        | Fails e => Fails e
        | Done (sub_rlp, split') =>
            match apply sub sub_rlp with
            | Fails e => Fails e
            | Done (sub', _) =>
                match for_sub apply more split' with
                | Fails e => Fails e
                | Done (more', split'') => Done (sub' :: more', split'')
                end
            end
        end
      else
        match apply sub split with
        | Fails e => Fails e
        | Done (sub', split') =>
            match for_sub apply more split' with
            | Fails e => Fails e
            | Done (more', split'') => Done (sub' :: more', split'')
            end
        end
  end.

(** [_apply_rlp_cache(obj, split_rlp)] returns the object and the list as
    the call leaves them. *)
Fixpoint _apply_rlp_cache (obj : cobj) (split : split_rlp)
  : outcome (cobj * split_rlp) :=
  match obj with
  | CObj has cached seq subs =>
      match pop0 split with
      | Fails e => Fails e
      | Done (item_rlp, split') =>
          let cached' := if has then Some item_rlp else cached in
          if seq then
            match for_sub _apply_rlp_cache subs split' with
            | Fails e => Fails e
            | Done (subs', split'') => Done (CObj has cached' seq subs', split'')
            end
          else Done (CObj has cached' seq subs, split')
      end
  end.

Definition hasattr_cached_rlp (obj : cobj) : bool :=
  match obj with CObj has _ _ _ => has end.

(** How [decode] with a sedes ends: it returns the object, or raises an
    exception of the decoder, or lets through what [sedes.deserialize]
    raised, or what [pop] raised in [_apply_rlp_cache]. *)
Inductive decode_result :=
| Returns (obj : cobj)
| DecodeRaises (e : exn)
| DeserializeRaises
| PopRaises (e : pop_error).

Section DecodeSedes.

(** [deserialize item] is [sedes.deserialize(item, **kwargs)] for the
    sedes given to [decode] (a true value in [if sedes:]); [None] when it
    raises. *)
Variable deserialize : item -> option cobj.

Definition decode_sedes (rlp : bytes) (strict : bool) : decode_result :=
  match consume_item rlp 0 with
  | Raise IndexError => DecodeRaises (DecodingError StringTooShort)
  | Raise e => DecodeRaises e
  | Ok (item_with_rlp, end_) =>
      if negb (end_ =? py_len rlp) && strict
      then DecodeRaises (DecodingError (SuperfluousBytes (py_len rlp - end_)))
      else
        let (item, per_item_rlp) := _split_rlp_from_item item_with_rlp in
        match deserialize item with
        | None => DeserializeRaises
        | Some obj =>
            if is_sequence obj || hasattr_cached_rlp obj then
              match _apply_rlp_cache obj (rlp_items per_item_rlp) with
              | Done (obj', _) => Returns obj'
              | Fails e => PopRaises e
              end
            else Returns obj
        end
  end.

End DecodeSedes.

(** ** Notions used to state the properties *)

(** The offset [encode_raw] frames a payload of the given type with. *)
Definition prefix_offset (t : payload_type) : Z :=
  match t with
  | TBytes => 128
  | TList => 192
  end.

(** The bare item of a decoded item: its first component, with the
    encodings stripped off at every level. *)
Definition bare (d : decoded) : item := fst (_split_rlp_from_item d).

(** One step of the loop of [consume_payload]: [consume_item] at a given
    fuel. *)
Definition consume_item_fuel (fuel : nat) (rlp : bytes) (start : Z)
  : option (result (decoded * Z)) :=
  match consume_length_prefix rlp start with
  | Ok (p, t, l, s) => consume_payload_fuel fuel rlp p s t l
  | Raise e => Some (Raise e)
  end.

(** The length of the prefix [length_prefix] writes for a payload of
    [n] bytes, and the length of the encoding of an item. *)
Definition prefix_length (n : Z) : Z :=
  if n <? 56 then 1 else 1 + py_len (int_to_big_endian n).

Fixpoint encoded_length (t : item) : Z :=
  match t with
  | Atomic b =>
      if match b with
         | [x] => byte.unsigned x <? 128
         | _ => false
         end
      then 1
      else prefix_length (py_len b) + py_len b
  | Sequence xs =>
      let n := fold_right Z.add 0 (map encoded_length xs) in
      prefix_length n + n
  | Other => 0
  end.

(** The payload of a leaf is the leaf; the payload of a sequence is the
    concatenation of the encodings of its children. *)
Definition payload_length (t : item) : Z :=
  match t with
  | Atomic b => py_len b
  | Sequence xs => fold_right Z.add 0 (map encoded_length xs)
  | Other => 0
  end.

(** The trees of byte strings in which every payload is shorter than
    [2^64] bytes. *)
Inductive tree_in_range : item -> Prop :=
| range_Atomic (b : bytes) :
    payload_length (Atomic b) < 2 ^ 64 -> tree_in_range (Atomic b)
| range_Sequence (xs : list item) :
    Forall tree_in_range xs ->
    payload_length (Sequence xs) < 2 ^ 64 ->
    tree_in_range (Sequence xs).

(** The children the loop of [consume_payload] consumes one after the
    other from position [from], each starting before [end_], up to the
    position [to]. *)
Inductive consumed_children (rlp : bytes) (end_ : Z)
  : Z -> list decoded -> Z -> Prop :=
| consumed_none (from : Z) : consumed_children rlp end_ from [] from
| consumed_next (from next to : Z) (child : decoded) (rest : list decoded) :
    from < end_ ->
    consume_item rlp from = Ok (child, next) ->
    consumed_children rlp end_ next rest to ->
    consumed_children rlp end_ from (child :: rest) to.

(** The tests of [infer_sedes], in the order in which it makes them, and
    what iterating over a sequence yields. *)
Definition unsigned_int_test (obj : pyobj) : bool :=
  negb (isinstance_bool obj) && isinstance_int obj && (0 <=? int_value obj).

Definition sequence_test (obj : pyobj) : bool :=
  negb (isinstance_str obj) && isinstance_Sequence obj.

Definition elements_of (obj : pyobj) : list pyobj :=
  match obj with
  | PyList xs => xs
  | PyInstance _ xs _ => xs
  | _ => []
  end.

(** The same object with another content of its [_cached_rlp] slot. *)
Definition with_cached_rlp (obj : pyobj) (cached : option bytes) : pyobj :=
  match obj with
  | PyInstance cls xs _ => PyInstance cls xs cached
  | _ => obj
  end.

(** Decoding the encoding of an item, wherever it stands in the input,
    gives the item back together with its encoding, and ends right after
    it. *)
Definition reads_back (t : item) : Prop :=
  forall b, encode_raw t = Ok b ->
  forall pre post, exists fuel d,
    consume_item_fuel fuel (pre ++ b ++ post) (py_len pre)
      = Some (Ok (d, py_len pre + py_len b)) /\
    bare d = t /\ rlp_of d = b.

(** The decoded children of a decoded item, and the decoded items in
    which every node carries the encoding of its own bare item. *)
Definition children_of (d : decoded) : list decoded :=
  match d with
  | DBytes _ _ => []
  | DList items _ => items
  end.

Inductive well_decorated : decoded -> Prop :=
| well_decorated_node (d : decoded) :
    encode_raw (bare d) = Ok (rlp_of d) ->
    Forall well_decorated (children_of d) ->
    well_decorated d.

(** An object that mirrors a decoded item: it is a sequence exactly where
    the item is a list, with one element per child, each mirroring its
    child. *)
Inductive shaped : decoded -> cobj -> Prop :=
| shaped_leaf (item rlp : bytes) (has : bool) (cached : option split_rlp)
    (subs : list cobj) :
    shaped (DBytes item rlp) (CObj has cached false subs)
| shaped_list (items : list decoded) (rlp : bytes) (has : bool)
    (cached : option split_rlp) (subs : list cobj) :
    Forall2 shaped items subs ->
    shaped (DList items rlp) (CObj has cached true subs).

Fixpoint pairwise (f : cobj -> decoded -> cobj) (subs : list cobj)
    (ds : list decoded) : list cobj :=
  match subs, ds with
  | sub :: more, d :: rest => f sub d :: pairwise f more rest
  | _, _ => subs
  end.

(** The object in which every node that has the attribute [_cached_rlp]
    holds the encoding attached to the node of the decoded item at the same
    place, and nothing else differs. *)
Fixpoint warmed (obj : cobj) (d : decoded) : cobj :=
  match obj with
  | CObj has cached seq subs =>
      CObj has (if has then Some (SplitBytes (rlp_of d)) else cached) seq
        (pairwise warmed subs (children_of d))
  end.

(** What the call does on an object that mirrors the decoded item: as an
    element that is not a sequence it takes the first entry of the shared
    list; as a sequence it consumes the whole list made for it. *)
Definition applies_to (obj : cobj) : Prop :=
  forall d, shaped d obj ->
    (is_sequence obj = false ->
     forall more,
       _apply_rlp_cache obj
         (SplitList (rlp_items (snd (_split_rlp_from_item d)) :: more))
       = Done (warmed obj d, SplitList more)) /\
    (is_sequence obj = true ->
     _apply_rlp_cache obj (rlp_items (snd (_split_rlp_from_item d)))
     = Done (warmed obj d, SplitList [])).

(** Tactics shared by the proofs. *)
Ltac break_if :=
  match goal with
  | H : context [if ?c then _ else _] |- _ => destruct c eqn:?
  | |- context [if ?c then _ else _] => destruct c eqn:?
  end.

Ltac inv H := inversion H; subst; clear H.

(** * Properties *)

(** ** Python sequences *)

Lemma py_len_nonneg {A : Type} (l : list A) : 0 <= py_len l.
Proof. unfold py_len. lia. Qed.

Lemma py_len_app {A : Type} (l1 l2 : list A) :
  py_len (l1 ++ l2) = py_len l1 + py_len l2.
Proof. unfold py_len. rewrite length_app. lia. Qed.

Lemma py_len_cons {A : Type} (x : A) (l : list A) :
  py_len (x :: l) = 1 + py_len l.
Proof. unfold py_len. simpl List.length. lia. Qed.

Lemma py_len_nil {A : Type} : py_len (@nil A) = 0.
Proof. reflexivity. Qed.

(** An index that is not negative reads the element at that position. *)
Lemma py_index_nonneg {A : Type} (l : list A) (i : Z) :
  0 <= i ->
  py_index l i =
    match nth_error l (Z.to_nat i) with
    | Some x => Ok x
    | None => Raise IndexError
    end.
Proof.
  intros Hi. unfold py_index.
  destruct (i <? 0) eqn:E; [lia|].
  destruct (i <? 0); [lia|]. simpl.
  destruct (py_len l <=? i) eqn:E2; [|reflexivity].
  apply Z.leb_le in E2.
  assert (H : nth_error l (Z.to_nat i) = None).
  { apply nth_error_None. unfold py_len in E2. lia. }
  now rewrite H.
Qed.

Lemma py_index_Ok_lt {A : Type} (l : list A) (i : Z) (x : A) :
  py_index l i = Ok x -> i < py_len l.
Proof.
  unfold py_index. intros H.
  destruct (i <? 0) eqn:E.
  - apply Z.ltb_lt in E. pose proof (py_len_nonneg l). lia.
  - destruct ((i <? 0) || (py_len l <=? i)) eqn:E2; [discriminate|].
    apply orb_false_iff in E2. destruct E2 as [_ E2].
    apply Z.leb_gt in E2. exact E2.
Qed.

Lemma py_index_app_mid {A : Type} (l1 l2 : list A) (x : A) :
  py_index (l1 ++ x :: l2) (py_len l1) = Ok x.
Proof.
  rewrite py_index_nonneg by apply py_len_nonneg.
  unfold py_len. rewrite Nat2Z.id.
  rewrite nth_error_app2 by lia.
  now rewrite Nat.sub_diag.
Qed.

(** A slice between two positions inside the sequence. *)
Lemma py_slice_inside {A : Type} (l : list A) (a b : Z) :
  0 <= a -> a <= b -> b <= py_len l ->
  py_slice l a b = firstn (Z.to_nat (b - a)) (skipn (Z.to_nat a) l).
Proof.
  intros Ha Hab Hb. unfold py_slice.
  destruct (a <? 0) eqn:E1; [lia|].
  destruct (b <? 0) eqn:E2; [lia|].
  rewrite !Z.min_l by lia. reflexivity.
Qed.

Lemma py_slice_app_mid {A : Type} (l1 l2 l3 : list A) :
  py_slice (l1 ++ l2 ++ l3) (py_len l1) (py_len l1 + py_len l2) = l2.
Proof.
  rewrite py_slice_inside.
  - replace (py_len l1 + py_len l2 - py_len l1) with (py_len l2) by lia.
    unfold py_len. rewrite !Nat2Z.id.
    rewrite skipn_app, Nat.sub_diag, skipn_all. simpl.
    rewrite firstn_app, Nat.sub_diag, firstn_all. simpl.
    apply app_nil_r.
  - apply py_len_nonneg.
  - pose proof (py_len_nonneg l2). lia.
  - rewrite !py_len_app. pose proof (py_len_nonneg l3). lia.
Qed.

Lemma py_slice_length {A : Type} (l : list A) (a b : Z) :
  0 <= a -> a <= b -> b <= py_len l ->
  py_len (py_slice l a b) = b - a.
Proof.
  intros Ha Hab Hb. rewrite py_slice_inside by assumption.
  unfold py_len in *. rewrite length_firstn, length_skipn. lia.
Qed.

Lemma py_slice_split {A : Type} (l : list A) (a b c : Z) :
  0 <= a -> a <= b -> b <= c -> c <= py_len l ->
  py_slice l a c = py_slice l a b ++ py_slice l b c.
Proof.
  intros Ha Hab Hbc Hc.
  rewrite !py_slice_inside by lia.
  replace (Z.to_nat (c - a)) with (Z.to_nat (b - a) + Z.to_nat (c - b))%nat by lia.
  replace (Z.to_nat b) with (Z.to_nat (b - a) + Z.to_nat a)%nat by lia.
  rewrite <- skipn_skipn.
  set (r := skipn (Z.to_nat a) l).
  rewrite <- (firstn_skipn (Z.to_nat (b - a)) r) at 1.
  rewrite firstn_app.
  rewrite length_firstn.
  assert (Hr : (Z.to_nat (b - a) <= List.length r)%nat).
  { subst r. rewrite length_skipn. unfold py_len in Hc. lia. }
  rewrite Nat.min_l by exact Hr.
  rewrite firstn_firstn.
  rewrite Nat.min_r by lia.
  f_equal. f_equal. lia.
Qed.

Lemma py_slice_empty {A : Type} (l : list A) (a : Z) :
  py_slice l a a = [].
Proof. unfold py_slice. now rewrite Z.sub_diag. Qed.

Lemma py_slice_all {A : Type} (l : list A) :
  py_slice l 0 (py_len l) = l.
Proof.
  rewrite py_slice_inside; try lia; try apply py_len_nonneg.
  rewrite Z.sub_0_r. unfold py_len. rewrite Nat2Z.id. simpl.
  apply firstn_all.
Qed.

(** Reading one element is the slice of length one. *)
Lemma py_slice_one {A : Type} (l : list A) (i : Z) (x : A) :
  0 <= i -> py_index l i = Ok x -> py_slice l i (i + 1) = [x].
Proof.
  intros Hi H. pose proof (py_index_Ok_lt _ _ _ H) as Hlt.
  rewrite py_index_nonneg in H by assumption.
  destruct (nth_error l (Z.to_nat i)) as [y|] eqn:E; [|discriminate].
  injection H as ->.
  rewrite py_slice_inside by lia.
  replace (i + 1 - i) with 1 by lia.
  apply nth_error_split in E. destruct E as (l1 & l2 & -> & Hl1).
  rewrite <- Hl1.
  rewrite skipn_app, Nat.sub_diag, skipn_all. reflexivity.
Qed.

(** ** Big-endian integers *)

Lemma fold_big_endian (l : bytes) (acc : Z) :
  fold_left (fun a b => a * 256 + byte.unsigned b) l acc =
  acc * 256 ^ py_len l + big_endian_to_int l.
Proof.
  unfold big_endian_to_int. revert acc.
  induction l as [|x l IH]; intros acc.
  - cbn. lia.
  - cbn [fold_left].
    rewrite (IH (acc * 256 + byte.unsigned x)).
    rewrite (IH (0 * 256 + byte.unsigned x)).
    rewrite py_len_cons. rewrite Z.pow_add_r by (pose proof (py_len_nonneg l); lia).
    lia.
Qed.

Lemma big_endian_to_int_cons (x : byte) (l : bytes) :
  big_endian_to_int (x :: l) =
  byte.unsigned x * 256 ^ py_len l + big_endian_to_int l.
Proof.
  unfold big_endian_to_int at 1. simpl. apply fold_big_endian.
Qed.

Lemma big_endian_to_int_snoc (l : bytes) (x : byte) :
  big_endian_to_int (l ++ [x]) = big_endian_to_int l * 256 + byte.unsigned x.
Proof.
  unfold big_endian_to_int. rewrite fold_left_app. reflexivity.
Qed.

Lemma big_endian_to_int_range (l : bytes) :
  0 <= big_endian_to_int l < 256 ^ py_len l.
Proof.
  induction l as [|x l IH].
  - cbn. lia.
  - rewrite big_endian_to_int_cons, py_len_cons.
    pose proof (byte.unsigned_range x) as Hx. change (2 ^ 8) with 256 in Hx.
    pose proof (py_len_nonneg l).
    rewrite Z.pow_add_r by lia. change (256 ^ 1) with 256. nia.
Qed.

Lemma to_bytes_big_length (size : nat) (value : Z) :
  List.length (to_bytes_big size value) = size.
Proof.
  revert value. induction size as [|n IH]; intros value; simpl.
  - reflexivity.
  - rewrite length_app, IH. simpl. lia.
Qed.

Lemma big_endian_to_int_to_bytes (size : nat) (value : Z) :
  0 <= value < 256 ^ Z.of_nat size ->
  big_endian_to_int (to_bytes_big size value) = value.
Proof.
  revert value. induction size as [|n IH]; intros value Hv.
  - simpl in *. cbn. lia.
  - simpl to_bytes_big. rewrite big_endian_to_int_snoc.
    rewrite byte.unsigned_of_Z. unfold byte.wrap. change (2 ^ 8) with 256.
    rewrite Z.mod_mod by lia.
    rewrite IH.
    + pose proof (Z.div_mod value 256). lia.
    + rewrite Nat2Z.inj_succ, Z.pow_succ_r in Hv by lia.
      split.
      * apply Z.div_pos; lia.
      * apply Z.div_lt_upper_bound; lia.
Qed.

Lemma to_bytes_big_of_int (l : bytes) :
  to_bytes_big (List.length l) (big_endian_to_int l) = l.
Proof.
  induction l as [|x l IH] using rev_ind.
  - reflexivity.
  - rewrite length_app. simpl List.length. rewrite Nat.add_1_r.
    simpl to_bytes_big. rewrite big_endian_to_int_snoc.
    pose proof (byte.unsigned_range x) as Hx. change (2 ^ 8) with 256 in Hx.
    replace ((big_endian_to_int l * 256 + byte.unsigned x) / 256)
      with (big_endian_to_int l).
    2:{ rewrite Z.div_add_l by lia. rewrite Z.div_small by lia. lia. }
    replace ((big_endian_to_int l * 256 + byte.unsigned x) mod 256)
      with (byte.unsigned x).
    2:{ rewrite (Z.add_comm (big_endian_to_int l * 256)), Z.mod_add by lia.
        now rewrite Z.mod_small. }
    rewrite IH, byte.of_Z_unsigned. reflexivity.
Qed.

Lemma pow256 (k : Z) : 0 <= k -> 256 ^ k = 2 ^ (8 * k).
Proof. intros Hk. rewrite Z.pow_mul_r by lia. reflexivity. Qed.

(** The number of bytes [int_to_big_endian] produces for a positive
    integer. *)
Lemma byte_size_bounds (value : Z) :
  0 < value ->
  let size := (bit_length value + 7) / 8 in
  1 <= size /\ 256 ^ (size - 1) <= value < 256 ^ size.
Proof.
  intros Hv. unfold bit_length.
  destruct (value =? 0) eqn:E; [lia|]. clear E.
  rewrite Z.abs_eq by lia.
  pose proof (Z.log2_nonneg value) as HL.
  pose proof (Z.log2_spec value Hv) as [Hlo Hhi].
  set (L := Z.log2 value) in *.
  replace (L + 1 + 7) with (L + 8) by lia.
  pose proof (Z.div_mod (L + 8) 8) as Hd.
  pose proof (Z.mod_pos_bound (L + 8) 8) as Hm.
  set (k := (L + 8) / 8) in *.
  cbv zeta.
  assert (Hk : 1 <= k) by lia.
  split; [exact Hk|].
  rewrite !pow256 by lia.
  split.
  - apply Z.le_trans with (2 ^ L); [|exact Hlo].
    apply Z.pow_le_mono_r; lia.
  - apply Z.lt_le_trans with (2 ^ Z.succ L); [exact Hhi|].
    apply Z.pow_le_mono_r; lia.
Qed.

Lemma byte_size_unique (value k : Z) :
  1 <= k -> 256 ^ (k - 1) <= value < 256 ^ k ->
  (bit_length value + 7) / 8 = k.
Proof.
  intros Hk [Hlo Hhi].
  assert (Hv : 0 < value).
  { apply Z.lt_le_trans with (256 ^ (k - 1)); [|exact Hlo].
    apply Z.pow_pos_nonneg; lia. }
  unfold bit_length.
  destruct (value =? 0) eqn:E; [lia|]. clear E.
  rewrite Z.abs_eq by lia.
  rewrite !pow256 in * by lia.
  apply Z.log2_lt_pow2 in Hhi; [|exact Hv].
  apply Z.log2_le_pow2 in Hlo; [|exact Hv].
  set (L := Z.log2 value) in *.
  replace (L + 1 + 7) with (k * 8 + (L + 8 - 8 * k)) by lia.
  rewrite Z.add_comm, Z.div_add by lia.
  rewrite Z.div_small by lia. lia.
Qed.

Lemma int_to_big_endian_pos (value : Z) :
  0 < value ->
  int_to_big_endian value =
    to_bytes_big (Z.to_nat ((bit_length value + 7) / 8)) value.
Proof.
  intros Hv. unfold int_to_big_endian.
  pose proof (byte_size_bounds value Hv) as [H1 _]. cbv zeta in H1.
  destruct ((bit_length value + 7) / 8 =? 0) eqn:E; [lia|reflexivity].
Qed.

Lemma int_to_big_endian_length (value : Z) :
  0 < value ->
  py_len (int_to_big_endian value) = (bit_length value + 7) / 8.
Proof.
  intros Hv. rewrite int_to_big_endian_pos by exact Hv.
  unfold py_len. rewrite to_bytes_big_length.
  pose proof (byte_size_bounds value Hv) as [H1 _]. cbv zeta in H1. lia.
Qed.

(** [big_endian_to_int] undoes [int_to_big_endian]. *)
Lemma big_endian_to_int_of_bytes (value : Z) :
  0 < value -> big_endian_to_int (int_to_big_endian value) = value.
Proof.
  intros Hv. rewrite int_to_big_endian_pos by exact Hv.
  pose proof (byte_size_bounds value Hv) as [H1 [_ H2]]. cbv zeta in H1, H2.
  apply big_endian_to_int_to_bytes.
  rewrite Z2Nat.id by lia. lia.
Qed.

(** [int_to_big_endian] has no leading zero byte. *)
Lemma int_to_big_endian_head (value : Z) :
  0 < value ->
  exists x rest,
    int_to_big_endian value = x :: rest /\ byte.unsigned x <> 0.
Proof.
  intros Hv.
  pose proof (big_endian_to_int_of_bytes value Hv) as Hback.
  pose proof (int_to_big_endian_length value Hv) as Hlen.
  pose proof (byte_size_bounds value Hv) as [H1 [H2 _]]. cbv zeta in H1, H2.
  destruct (int_to_big_endian value) as [|x rest].
  - rewrite py_len_nil in Hlen. lia.
  - exists x, rest. split; [reflexivity|]. intros Hx.
    rewrite big_endian_to_int_cons, Hx in Hback.
    rewrite py_len_cons in Hlen.
    pose proof (big_endian_to_int_range rest) as Hr.
    replace ((bit_length value + 7) / 8 - 1) with (py_len rest) in H2 by lia.
    lia.
Qed.

(** [int_to_big_endian] undoes [big_endian_to_int] on a byte string
    without a leading zero byte. *)
Lemma int_to_big_endian_of_int (x : byte) (rest : bytes) :
  byte.unsigned x <> 0 ->
  int_to_big_endian (big_endian_to_int (x :: rest)) = x :: rest.
Proof.
  intros Hx.
  pose proof (big_endian_to_int_range (x :: rest)) as Hr.
  pose proof (big_endian_to_int_range rest) as Hr'.
  pose proof (byte.unsigned_range x) as Hb.
  pose proof (py_len_nonneg rest) as Hn.
  assert (Hlo : 256 ^ py_len rest <= big_endian_to_int (x :: rest)).
  { rewrite big_endian_to_int_cons.
    assert (0 < 256 ^ py_len rest) by (apply Z.pow_pos_nonneg; lia). nia. }
  assert (Hv : 0 < big_endian_to_int (x :: rest)).
  { assert (0 < 256 ^ py_len rest) by (apply Z.pow_pos_nonneg; lia). lia. }
  rewrite int_to_big_endian_pos by exact Hv.
  rewrite (byte_size_unique _ (py_len (x :: rest))).
  - unfold py_len. rewrite Nat2Z.id. apply to_bytes_big_of_int.
  - rewrite py_len_cons. lia.
  - rewrite py_len_cons in *. replace (1 + py_len rest - 1) with (py_len rest) by lia.
    lia.
Qed.

(** A single byte above zero is its own big-endian form. *)
Lemma int_to_big_endian_byte (x : byte) :
  0 < byte.unsigned x -> int_to_big_endian (byte.unsigned x) = [x].
Proof.
  intros Hx.
  replace (byte.unsigned x) with (big_endian_to_int [x]) at 1.
  - apply int_to_big_endian_of_int. lia.
  - rewrite big_endian_to_int_cons. cbn. lia.
Qed.

(** ** Prefix framing *)

Lemma ALL_BYTES_index (i : Z) :
  0 <= i < 256 -> py_index ALL_BYTES i = Ok [byte.of_Z i].
Proof.
  intros Hi. rewrite py_index_nonneg by lia.
  unfold ALL_BYTES. rewrite nth_error_map, nth_error_seq.
  destruct (Z.to_nat i <? 256)%nat eqn:E.
  - simpl. rewrite Z2Nat.id by lia. reflexivity.
  - apply Nat.ltb_ge in E. lia.
Qed.

Lemma byte_of_Z_small (i : Z) :
  0 <= i < 256 -> byte.unsigned (byte.of_Z i) = i.
Proof.
  intros Hi. rewrite byte.unsigned_of_Z. unfold byte.wrap.
  apply Z.mod_small. change (2 ^ 8) with 256. lia.
Qed.

Lemma length_prefix_short (length offset : Z) :
  0 <= length < 56 -> 0 <= offset <= 200 ->
  length_prefix length offset = Ok [byte.of_Z (offset + length)].
Proof.
  intros Hl Ho. unfold length_prefix.
  destruct (length <? 56) eqn:E; [|lia].
  apply ALL_BYTES_index. lia.
Qed.

Lemma long_length_size (length : Z) :
  56 <= length < 2 ^ 64 -> 1 <= py_len (int_to_big_endian length) <= 8.
Proof.
  intros Hl. rewrite int_to_big_endian_length by lia.
  pose proof (byte_size_bounds length ltac:(lia)) as [H1 [H2 _]].
  cbv zeta in H1, H2. split; [exact H1|].
  set (k := (bit_length length + 7) / 8) in *.
  assert (H : 256 ^ (k - 1) < 256 ^ 8).
  { change (256 ^ 8) with (2 ^ 64). lia. }
  apply Z.pow_lt_mono_r_iff in H; lia.
Qed.

Lemma length_prefix_long (length offset : Z) :
  56 <= length < 2 ^ 64 -> 0 <= offset <= 192 ->
  length_prefix length offset =
    Ok (byte.of_Z (offset + 55 + py_len (int_to_big_endian length))
          :: int_to_big_endian length).
Proof.
  intros Hl Ho. unfold length_prefix.
  destruct (length <? 56) eqn:E; [lia|].
  change LONG_LENGTH with (2 ^ 64).
  destruct (length <? 2 ^ 64) eqn:E2; [|lia].
  pose proof (long_length_size length Hl) as Hs.
  cbv zeta. rewrite ALL_BYTES_index by lia.
  cbn [bind app]. do 3 f_equal. lia.
Qed.

Lemma length_prefix_too_long (length offset : Z) :
  2 ^ 64 <= length -> length_prefix length offset = Raise ValueError.
Proof.
  intros Hl. unfold length_prefix.
  destruct (length <? 56) eqn:E; [lia|].
  change LONG_LENGTH with (2 ^ 64).
  destruct (length <? 2 ^ 64) eqn:E2; [lia|reflexivity].
Qed.

(** C5: [length_prefix length o] for a string or list offset [o] is the
    single byte [o + length] when [length < 56]; for [56 <= length < 2^64]
    it is the byte [o + 55 + len(L)] followed by [L], the big-endian form of
    [length] without a leading zero (one to eight bytes); for
    [length >= 2^64] it raises [ValueError], which [encode_raw] reports as
    the [EncodingError] 'Item too big to encode'. *)
Theorem length_prefix_spec (length o : Z) :
  o = 128 \/ o = 192 ->
  0 <= length ->
  (length < 56 ->
     length_prefix length o = Ok [byte.of_Z (o + length)] /\
     byte.unsigned (byte.of_Z (o + length)) = o + length) /\
  (56 <= length < 2 ^ 64 ->
     let L := int_to_big_endian length in
     big_endian_to_int L = length /\
     (exists x rest, L = x :: rest /\ byte.unsigned x <> 0) /\
     1 <= py_len L <= 8 /\
     length_prefix length o = Ok (byte.of_Z (o + 55 + py_len L) :: L) /\
     byte.unsigned (byte.of_Z (o + 55 + py_len L)) = o + 55 + py_len L) /\
  (2 ^ 64 <= length ->
     length_prefix length o = Raise ValueError /\
     forall payload : bytes,
       py_len payload = length ->
       add_prefix payload o = Raise (EncodingError ItemTooBig)).
Proof.
  intros Ho Hl. repeat split.
  - apply length_prefix_short; lia.
  - apply byte_of_Z_small. lia.
  - apply big_endian_to_int_of_bytes. lia.
  - apply int_to_big_endian_head. lia.
  - apply long_length_size. assumption.
  - apply long_length_size. assumption.
  - apply length_prefix_long; lia.
  - pose proof (long_length_size length H). apply byte_of_Z_small. lia.
  - apply length_prefix_too_long. assumption.
  - intros payload Hp. unfold add_prefix. rewrite Hp.
    rewrite length_prefix_too_long by assumption. reflexivity.
Qed.

Lemma length_prefix_spec_witness :
  length_prefix 3 128 = Ok [byte.of_Z (128 + 3)] /\
  length_prefix 1024 192 = Ok (byte.of_Z (192 + 55 + 2) :: int_to_big_endian 1024).
Proof.
  split.
  - apply (length_prefix_spec 3 128); [left; reflexivity | lia | lia].
  - apply (length_prefix_spec 1024 192); [right; reflexivity | lia | lia].
Defined.

(** ** Raw encoding *)

(** C6: a leaf of one byte below 128 is its own encoding; so are the byte
    strings [0x00] and [0x7f]. *)
Theorem encode_raw_single_byte :
  (forall x : byte, byte.unsigned x < 128 -> encode_raw (Atomic [x]) = Ok [x]) /\
  encode_raw (Atomic [Byte.x00]) = Ok [Byte.x00] /\
  encode_raw (Atomic [Byte.x7f]) = Ok [Byte.x7f].
Proof.
  repeat split.
  intros x Hx. simpl.
  destruct (byte.unsigned x <? 128) eqn:E; [reflexivity|].
  apply Z.ltb_ge in E. lia.
Qed.

Lemma encode_raw_single_byte_witness :
  encode_raw (Atomic [Byte.x41]) = Ok [Byte.x41].
Proof.
  apply (proj1 encode_raw_single_byte Byte.x41). vm_compute. reflexivity.
Defined.

(** ** The decoder: progress, end positions and fuel *)

(** A prefix that was read lies inside the input, announces a length that
    is not negative and leaves at least one byte to the item. *)
Lemma consume_length_prefix_progress rlp q p t l s :
  consume_length_prefix rlp q = Ok (p, t, l, s) ->
  q < py_len rlp /\ 0 <= l /\ q + 1 <= s + l /\ (t = TList -> q + 1 <= s).
Proof.
  unfold consume_length_prefix, SHORT_STRING. intros H.
  destruct (py_index rlp q) as [x0|] eqn:E0; [|discriminate].
  pose proof (py_index_Ok_lt _ _ _ E0) as Hq.
  pose proof (byte.unsigned_range x0) as Hx.
  cbn [bind] in H.
  repeat break_if; try discriminate;
    try (destruct (py_index rlp (q + 1)); cbn [bind] in H;
         repeat break_if; try discriminate);
    inv H; repeat split; try lia; try discriminate.
Qed.

Lemma consume_list_loop_S fuel rlp end_ items list_rlp next :
  consume_list_loop (S fuel) rlp end_ items list_rlp next =
    if next <? end_ then
      match consume_length_prefix rlp next with
      | Raise e => Some (Raise e)
      | Ok (p, t, l, s) =>
          match consume_payload_fuel fuel rlp p s t l with
          | None => None
          | Some (Raise e) => Some (Raise e)
          | Some (Ok (item, next')) =>
              consume_list_loop fuel rlp end_ (items ++ [item])
                (list_rlp ++ rlp_of item) next'
          end
      end
    else if end_ <? next then
      Some (Raise (DecodingError ListLengthTooSmall))
    else Some (Ok (DList items list_rlp, next)).
Proof. reflexivity. Qed.

Lemma consume_payload_fuel_bytes fuel rlp prefix start length :
  consume_payload_fuel fuel rlp prefix start TBytes length =
    Some (Ok (DBytes (py_slice rlp start (start + length))
                (prefix ++ py_slice rlp start (start + length)),
              start + length)).
Proof. destruct fuel; reflexivity. Qed.

Lemma consume_payload_fuel_list fuel rlp prefix start length :
  consume_payload_fuel (S fuel) rlp prefix start TList length =
    consume_list_loop fuel rlp (start + length) [] prefix start.
Proof. reflexivity. Qed.

(** The loop over the children only returns at the announced end. *)
Lemma consume_list_loop_end fuel :
  forall rlp end_ items list_rlp next d e,
    consume_list_loop fuel rlp end_ items list_rlp next = Some (Ok (d, e)) ->
    e = end_ /\ next <= end_.
Proof.
  induction fuel as [|fuel IH]; intros rlp end_ items list_rlp next d e H.
  - discriminate.
  - rewrite consume_list_loop_S in H.
    destruct (next <? end_) eqn:E1.
    + destruct (consume_length_prefix rlp next) as [[[[p t] l] s]|]; [|discriminate].
      destruct (consume_payload_fuel fuel rlp p s t l) as [[[item next']|]|];
        try discriminate.
      apply IH in H. lia.
    + destruct (end_ <? next) eqn:E2; [discriminate|].
      inv H. lia.
Qed.

Lemma consume_payload_fuel_end fuel rlp prefix start type_ length d e :
  consume_payload_fuel fuel rlp prefix start type_ length = Some (Ok (d, e)) ->
  e = start + length.
Proof.
  destruct type_.
  - rewrite consume_payload_fuel_bytes. intros H. now inv H.
  - destruct fuel as [|fuel]; [discriminate|].
    rewrite consume_payload_fuel_list. intros H.
    now apply consume_list_loop_end in H.
Qed.

(** More fuel does not change a result. *)
Lemma fuel_monotone fuel :
  (forall rlp prefix start type_ length r fuel',
      consume_payload_fuel fuel rlp prefix start type_ length = Some r ->
      (fuel <= fuel')%nat ->
      consume_payload_fuel fuel' rlp prefix start type_ length = Some r) /\
  (forall rlp end_ items list_rlp next r fuel',
      consume_list_loop fuel rlp end_ items list_rlp next = Some r ->
      (fuel <= fuel')%nat ->
      consume_list_loop fuel' rlp end_ items list_rlp next = Some r).
Proof.
  induction fuel as [|fuel [IHp IHl]]; split.
  - intros rlp prefix start [|] length r fuel' H _.
    + rewrite consume_payload_fuel_bytes in *. exact H.
    + discriminate.
  - discriminate.
  - intros rlp prefix start [|] length r fuel' H Hle.
    + rewrite consume_payload_fuel_bytes in *. exact H.
    + destruct fuel' as [|fuel']; [lia|].
      rewrite consume_payload_fuel_list in *.
      apply IHl; [exact H | lia].
  - intros rlp end_ items list_rlp next r fuel' H Hle.
    destruct fuel' as [|fuel']; [lia|].
    rewrite consume_list_loop_S in *.
    destruct (next <? end_); [|exact H].
    destruct (consume_length_prefix rlp next) as [[[[p t] l] s]|]; [|exact H].
    destruct (consume_payload_fuel fuel rlp p s t l) as [c|] eqn:Ec; [|discriminate].
    rewrite (IHp _ _ _ _ _ _ fuel' Ec) by lia.
    destruct c as [[item next']|]; [|exact H].
    apply IHl; [exact H | lia].
Qed.

(** The fuel computed from the input length is never exhausted: the
    decoder terminates on every input. *)
Lemma fuel_enough fuel :
  (forall rlp prefix start type_ length,
      2 * Z.max 0 (py_len rlp - start) + 2 <= Z.of_nat fuel ->
      consume_payload_fuel fuel rlp prefix start type_ length <> None) /\
  (forall rlp end_ items list_rlp next,
      2 * Z.max 0 (py_len rlp - next) + 1 <= Z.of_nat fuel ->
      consume_list_loop fuel rlp end_ items list_rlp next <> None).
Proof.
  induction fuel as [|fuel [IHp IHl]]; split.
  - intros; lia.
  - intros; lia.
  - intros rlp prefix start [|] length Hf.
    + rewrite consume_payload_fuel_bytes. discriminate.
    + rewrite consume_payload_fuel_list. apply IHl. lia.
  - intros rlp end_ items list_rlp next Hf.
    rewrite consume_list_loop_S.
    destruct (next <? end_); [|destruct (end_ <? next); discriminate].
    destruct (consume_length_prefix rlp next) as [[[[p t] l] s]|] eqn:Ep;
      [|discriminate].
    apply consume_length_prefix_progress in Ep.
    destruct Ep as (Hq & Hl & Hs & Ht).
    destruct (consume_payload_fuel fuel rlp p s t l) as [c|] eqn:Ec.
    + destruct c as [[item next']|]; [|discriminate].
      apply consume_payload_fuel_end in Ec. apply IHl. lia.
    + exfalso. revert Ec. destruct t.
      * rewrite consume_payload_fuel_bytes. discriminate.
      * apply IHp. specialize (Ht eq_refl). lia.
Qed.

Lemma consume_payload_fuel_enough rlp prefix start type_ length :
  consume_payload_fuel (fuel_at rlp start) rlp prefix start type_ length <> None.
Proof.
  apply fuel_enough. unfold fuel_at.
  pose proof (py_len_nonneg rlp). lia.
Qed.

(** [consume_payload] is the value of the fuelled decoder at any fuel that
    gives a value. *)
Lemma consume_payload_run fuel rlp prefix start type_ length r :
  consume_payload_fuel fuel rlp prefix start type_ length = Some r ->
  consume_payload rlp prefix start type_ length = r.
Proof.
  intros H. unfold consume_payload.
  destruct (consume_payload_fuel (fuel_at rlp start) rlp prefix start type_ length)
    as [r'|] eqn:E.
  - simpl.
    pose proof (proj1 (fuel_monotone _) _ _ _ _ _ _ (Nat.max fuel (fuel_at rlp start)) H
                  (Nat.le_max_l _ _)) as H1.
    pose proof (proj1 (fuel_monotone _) _ _ _ _ _ _ (Nat.max fuel (fuel_at rlp start)) E
                  (Nat.le_max_r _ _)) as H2.
    congruence.
  - now apply consume_payload_fuel_enough in E.
Qed.

Lemma consume_payload_inv rlp prefix start type_ length r :
  consume_payload rlp prefix start type_ length = r ->
  exists fuel, consume_payload_fuel fuel rlp prefix start type_ length = Some r.
Proof.
  intros H. exists (fuel_at rlp start). unfold consume_payload in H.
  destruct (consume_payload_fuel (fuel_at rlp start) rlp prefix start type_ length)
    as [r'|] eqn:E.
  - simpl in H. now subst.
  - now apply consume_payload_fuel_enough in E.
Qed.

Lemma py_index_raises {A : Type} (l : list A) (i : Z) (e : exn) :
  py_index l i = Raise e -> e = IndexError.
Proof.
  unfold py_index. cbv zeta. intros H.
  destruct ((if i <? 0 then i + py_len l else i) <? 0) eqn:E1;
    cbn [orb] in H; [congruence|].
  destruct (py_len l <=? (if i <? 0 then i + py_len l else i)); [congruence|].
  destruct (nth_error l (Z.to_nat (if i <? 0 then i + py_len l else i)));
    congruence.
Qed.

Lemma consume_length_prefix_raises rlp q e :
  consume_length_prefix rlp q = Raise e ->
  e = IndexError \/ exists m, e = DecodingError m.
Proof.
  unfold consume_length_prefix, SHORT_STRING. intros H.
  destruct (py_index rlp q) as [x0|e0] eqn:E0; cbn [bind] in H.
  - repeat break_if; try discriminate;
      try (destruct (py_index rlp (q + 1)) as [x1|e1] eqn:E1; cbn [bind] in H;
           [repeat break_if; try discriminate
           | inv H; left; eapply py_index_raises; eassumption]);
      inv H; right; eexists; reflexivity.
  - inv H. left. eapply py_index_raises; eassumption.
Qed.

Lemma no_recursion_error fuel :
  (forall rlp prefix start type_ length,
     consume_payload_fuel fuel rlp prefix start type_ length
       <> Some (Raise RecursionError)) /\
  (forall rlp end_ items list_rlp next,
     consume_list_loop fuel rlp end_ items list_rlp next
       <> Some (Raise RecursionError)).
Proof.
  induction fuel as [|fuel [IHp IHl]]; split.
  - intros rlp prefix start [|] length; [|discriminate].
    rewrite consume_payload_fuel_bytes. discriminate.
  - discriminate.
  - intros rlp prefix start [|] length.
    + rewrite consume_payload_fuel_bytes. discriminate.
    + rewrite consume_payload_fuel_list. apply IHl.
  - intros rlp end_ items list_rlp next. rewrite consume_list_loop_S.
    destruct (next <? end_); [|destruct (end_ <? next); discriminate].
    destruct (consume_length_prefix rlp next) as [[[[p t] l] s]|] eqn:Ep.
    + destruct (consume_payload_fuel fuel rlp p s t l) as [[[item next']|e]|] eqn:Ec.
      * apply IHl.
      * intros H. inv H. now apply IHp in Ec.
      * discriminate.
    + intros H. inv H. apply consume_length_prefix_raises in Ep.
      destruct Ep as [Ep|[m Ep]]; discriminate.
Qed.

(** The decoder never reports exhausted fuel. *)
Lemma consume_payload_total rlp prefix start type_ length :
  consume_payload rlp prefix start type_ length <> Raise RecursionError.
Proof.
  intros H. apply consume_payload_inv in H. destruct H as [fuel H].
  now apply (proj1 (no_recursion_error fuel)) in H.
Qed.

(** ** What the decoder accepts is what the encoder writes *)

Lemma py_slice_singleton {A : Type} (l : list A) (a : Z) :
  0 <= a -> a + 1 <= py_len l -> exists x, py_slice l a (a + 1) = [x].
Proof.
  intros Ha Hb.
  pose proof (py_slice_length l a (a + 1) Ha ltac:(lia) Hb) as Hlen.
  destruct (py_slice l a (a + 1)) as [|x [|y r]].
  - rewrite py_len_nil in Hlen. lia.
  - now exists x.
  - rewrite !py_len_cons in Hlen. pose proof (py_len_nonneg r). lia.
Qed.

(** The length field of a long form that passed the checks is the
    big-endian form of the length it announces. *)
Lemma long_length_field rlp q ll :
  0 <= q -> 1 <= ll <= 8 -> q + 1 + ll <= py_len rlp ->
  is_zero_byte (py_slice rlp (q + 1) (q + 2)) = false ->
  py_len (py_slice rlp (q + 1) (q + 1 + ll)) = ll /\
  int_to_big_endian (big_endian_to_int (py_slice rlp (q + 1) (q + 1 + ll)))
    = py_slice rlp (q + 1) (q + 1 + ll) /\
  big_endian_to_int (py_slice rlp (q + 1) (q + 1 + ll)) < 2 ^ 64.
Proof.
  intros Hq Hll Hlen Hz.
  assert (Hsz : py_len (py_slice rlp (q + 1) (q + 1 + ll)) = ll).
  { rewrite py_slice_length; lia. }
  split; [exact Hsz|]. split.
  - rewrite (py_slice_split rlp (q + 1) (q + 2) (q + 1 + ll)) by lia.
    destruct (py_slice_singleton rlp (q + 1)) as [y Hy]; try lia.
    replace (q + 1 + 1) with (q + 2) in Hy by lia.
    rewrite Hy in *. cbn [app].
    apply int_to_big_endian_of_int.
    cbn [is_zero_byte] in Hz. lia.
  - pose proof (big_endian_to_int_range (py_slice rlp (q + 1) (q + 1 + ll))) as Hr.
    rewrite Hsz in Hr.
    assert (256 ^ ll <= 256 ^ 8) by (apply Z.pow_le_mono_r; lia).
    change (256 ^ 8) with (2 ^ 64) in *. lia.
Qed.

Lemma prefix_byte rlp q x0 :
  0 <= q -> py_index rlp q = Ok x0 -> 128 <= byte.unsigned x0 ->
  int_to_big_endian (byte.unsigned x0) = py_slice rlp q (q + 1).
Proof.
  intros Hq H0 Hx. rewrite (py_slice_one _ _ _ Hq H0).
  apply int_to_big_endian_byte. lia.
Qed.

(** Every prefix [consume_length_prefix] accepts, when the item it
    announces lies inside the input, is the prefix [length_prefix] writes
    for that length, or the item is a single byte below 128. *)
Lemma consume_length_prefix_canonical rlp q p t l s :
  0 <= q ->
  consume_length_prefix rlp q = Ok (p, t, l, s) ->
  s + l <= py_len rlp ->
  (t = TBytes /\ l = 1 /\ s = q /\ p = [] /\
   exists x, py_slice rlp q (q + 1) = [x] /\ byte.unsigned x < 128)
  \/
  (q < s /\ p = py_slice rlp q s /\
   length_prefix l (prefix_offset t) = Ok p /\
   (t = TBytes ->
    forall x, py_slice rlp s (s + l) = [x] -> 128 <= byte.unsigned x)).
Proof.
  intros Hq H Hin.
  unfold consume_length_prefix, SHORT_STRING in H.
  destruct (py_index rlp q) as [x0|] eqn:E0; [|discriminate].
  pose proof (py_index_Ok_lt _ _ _ E0) as Hlt.
  pose proof (byte.unsigned_range x0) as Hx. change (2 ^ 8) with 256 in Hx.
  pose proof (py_slice_one _ _ _ Hq E0) as Hfirst.
  cbn [bind] in H.
  destruct (byte.unsigned x0 <? 128) eqn:C1.
  { inv H. left. repeat split. exists x0. split; [exact Hfirst | lia]. }
  right.
  assert (Hp0 : int_to_big_endian (byte.unsigned x0) = py_slice rlp q (q + 1)).
  { apply prefix_byte; [assumption..|lia]. }
  destruct (byte.unsigned x0 <? 128 + 56) eqn:C2.
  { (* short string *)
    assert (Hshort : length_prefix (byte.unsigned x0 - 128) (prefix_offset TBytes)
                     = Ok (int_to_big_endian (byte.unsigned x0))).
    { cbn [prefix_offset]. rewrite Hp0. rewrite length_prefix_short by lia.
      replace (128 + (byte.unsigned x0 - 128)) with (byte.unsigned x0) by lia.
      now rewrite byte.of_Z_unsigned, Hfirst. }
    destruct (byte.unsigned x0 - 128 =? 1) eqn:C3.
    - destruct (py_index rlp (q + 1)) as [x1|] eqn:E1; [|discriminate].
      cbn [bind] in H.
      destruct (byte.unsigned x1 <? 128) eqn:C4; [discriminate|].
      inv H. repeat split; try lia; try assumption.
      intros _ x Hx1.
      replace (byte.unsigned x0 - 128) with 1 in Hx1 by lia.
      rewrite (py_slice_one rlp (q + 1) x1 ltac:(lia) E1) in Hx1.
      inv Hx1. lia.
    - inv H. repeat split; try lia; try assumption.
      intros _ x Hx1.
      assert (Hl : py_len (py_slice rlp (q + 1) (q + 1 + (byte.unsigned x0 - 128)))
                   = byte.unsigned x0 - 128).
      { rewrite py_slice_length; lia. }
      rewrite Hx1 in Hl. cbn in Hl. lia. }
  destruct (byte.unsigned x0 <? 192) eqn:C3.
  { (* long string *)
    destruct (is_zero_byte (py_slice rlp (q + 1) (q + 2))) eqn:Z0; [discriminate|].
    cbv zeta in H.
    destruct (big_endian_to_int
                (py_slice rlp (q + 1) (q + 1 + (byte.unsigned x0 - 183))) <? 56)
      eqn:C5; [discriminate|].
    inv H.
    destruct (long_length_field rlp q (byte.unsigned x0 - 183))
      as (Hsz & Hback & Hbig); try lia; try assumption.
    repeat split; try lia.
    - rewrite Hp0.
      rewrite (py_slice_split rlp q (q + 1) (q + 1 + (byte.unsigned x0 - 183)))
        by lia.
      reflexivity.
    - cbn [prefix_offset]. rewrite length_prefix_long by lia.
      rewrite Hback, Hsz, Hp0, Hfirst.
      replace (128 + 55 + (byte.unsigned x0 - 183)) with (byte.unsigned x0) by lia.
      now rewrite byte.of_Z_unsigned.
    - intros _ x Hx1.
      match type of Hx1 with py_slice ?r ?a ?b = _ =>
        assert (Hl : py_len (py_slice r a b) = b - a)
          by (rewrite py_slice_length; lia) end.
      rewrite Hx1 in Hl. cbn in Hl. lia. }
  destruct (byte.unsigned x0 <? 192 + 56) eqn:C4.
  { (* short list *)
    inv H. repeat split; try lia; try assumption; try discriminate.
    cbn [prefix_offset]. rewrite length_prefix_short by lia.
    replace (192 + (byte.unsigned x0 - 192)) with (byte.unsigned x0) by lia.
    now rewrite byte.of_Z_unsigned, Hp0, Hfirst. }
  (* long list *)
  destruct (is_zero_byte (py_slice rlp (q + 1) (q + 2))) eqn:Z0; [discriminate|].
  cbv zeta in H.
  destruct (big_endian_to_int
              (py_slice rlp (q + 1) (q + 1 + (byte.unsigned x0 - 192 - 56 + 1))) <? 56)
    eqn:C5; [discriminate|].
  inv H.
  destruct (long_length_field rlp q (byte.unsigned x0 - 192 - 56 + 1))
    as (Hsz & Hback & Hbig); try lia; try assumption.
  repeat split; try lia; try discriminate.
  - rewrite Hp0.
    rewrite (py_slice_split rlp q (q + 1)
               (q + 1 + (byte.unsigned x0 - 192 - 56 + 1))) by lia.
    reflexivity.
  - cbn [prefix_offset]. rewrite length_prefix_long by lia.
    rewrite Hback, Hsz, Hp0, Hfirst.
    replace (192 + 55 + (byte.unsigned x0 - 192 - 56 + 1))
      with (byte.unsigned x0) by lia.
    now rewrite byte.of_Z_unsigned.
Qed.

Lemma add_prefix_ok payload offset prefix :
  length_prefix (py_len payload) offset = Ok prefix ->
  add_prefix payload offset = Ok (prefix ++ payload).
Proof. intros H. unfold add_prefix. now rewrite H. Qed.

Lemma bare_DBytes item rlp : bare (DBytes item rlp) = Atomic item.
Proof. reflexivity. Qed.

Lemma bare_DList items rlp : bare (DList items rlp) = Sequence (map bare items).
Proof. reflexivity. Qed.

Lemma encode_raw_Sequence xs :
  encode_raw (Sequence xs) =
    (payload <- join (map encode_raw xs) ;; add_prefix payload 192).
Proof. reflexivity. Qed.

Lemma encode_raw_Atomic_framed b :
  (forall x, b = [x] -> 128 <= byte.unsigned x) ->
  encode_raw (Atomic b) = add_prefix b 128.
Proof.
  intros H. cbn [encode_raw].
  destruct b as [|x [|y r]]; try reflexivity.
  specialize (H x eq_refl).
  destruct (byte.unsigned x <? 128) eqn:E; [lia|reflexivity].
Qed.

(** Whatever the decoder returns from inside the input, the encoder maps
    back to the bytes it was read from, which are also the encoding the
    decoder attaches to the item. *)
Lemma decode_sound fuel :
  (forall rlp q p t l s d e,
      0 <= q ->
      consume_length_prefix rlp q = Ok (p, t, l, s) ->
      consume_payload_fuel fuel rlp p s t l = Some (Ok (d, e)) ->
      e <= py_len rlp ->
      encode_raw (bare d) = Ok (py_slice rlp q e) /\
      rlp_of d = py_slice rlp q e) /\
  (forall rlp end_ items list_rlp next d e,
      0 <= next ->
      consume_list_loop fuel rlp end_ items list_rlp next = Some (Ok (d, e)) ->
      end_ <= py_len rlp ->
      exists new,
        d = DList (items ++ new) (list_rlp ++ py_slice rlp next end_) /\
        join (map encode_raw (map bare new)) = Ok (py_slice rlp next end_)).
Proof.
  assert (Bytes : forall rlp q p l s,
    0 <= q ->
    consume_length_prefix rlp q = Ok (p, TBytes, l, s) ->
    s + l <= py_len rlp ->
    encode_raw (Atomic (py_slice rlp s (s + l))) = Ok (py_slice rlp q (s + l)) /\
    p ++ py_slice rlp s (s + l) = py_slice rlp q (s + l)).
  { intros rlp q p l s Hq Hp Hin.
    pose proof (consume_length_prefix_progress _ _ _ _ _ _ Hp) as (_ & Hl & _ & _).
    destruct (consume_length_prefix_canonical _ _ _ _ _ _ Hq Hp Hin)
      as [(_ & -> & -> & -> & x & Hx & Hlt) | (Hqs & -> & Hpre & Hsingle)].
    - rewrite Hx. split; [|reflexivity].
      cbn [encode_raw]. destruct (byte.unsigned x <? 128) eqn:E; [reflexivity|lia].
    - specialize (Hsingle eq_refl).
      rewrite encode_raw_Atomic_framed by exact Hsingle.
      rewrite (py_slice_split rlp q s (s + l)) by lia.
      split; [|reflexivity].
      apply add_prefix_ok. rewrite py_slice_length by lia.
      replace (s + l - s) with l by lia. exact Hpre. }
  induction fuel as [|fuel [IHp IHl]]; split.
  - intros rlp q p [|] l s d e Hq Hp H He; [|discriminate].
    rewrite consume_payload_fuel_bytes in H. inv H.
    rewrite bare_DBytes. cbn [rlp_of]. now apply (Bytes rlp q p l s).
  - discriminate.
  - intros rlp q p [|] l s d e Hq Hp H He.
    + rewrite consume_payload_fuel_bytes in H. inv H.
      rewrite bare_DBytes. cbn [rlp_of]. now apply (Bytes rlp q p l s).
    + rewrite consume_payload_fuel_list in H.
      pose proof (consume_list_loop_end _ _ _ _ _ _ _ _ H) as [-> Hse].
      pose proof (consume_length_prefix_progress _ _ _ _ _ _ Hp) as (_ & Hl & _ & Hs).
      specialize (Hs eq_refl).
      destruct (consume_length_prefix_canonical _ _ _ _ _ _ Hq Hp He)
        as [(Habs & _) | (Hqs & -> & Hpre & _)]; [discriminate|].
      assert (Hs0 : 0 <= s) by lia.
      destruct (IHl _ _ _ _ _ _ _ Hs0 H He) as (new & -> & Hjoin).
      cbn [app rlp_of]. rewrite bare_DList, encode_raw_Sequence, Hjoin.
      cbn [bind].
      rewrite (py_slice_split rlp q s (s + l)) by lia.
      split; [|reflexivity].
      apply add_prefix_ok. rewrite py_slice_length by lia.
      replace (s + l - s) with l by lia. exact Hpre.
  - intros rlp end_ items list_rlp next d e Hn H He.
    rewrite consume_list_loop_S in H.
    destruct (next <? end_) eqn:E1.
    + destruct (consume_length_prefix rlp next) as [[[[p t] l] s]|] eqn:Ep;
        [|discriminate].
      destruct (consume_payload_fuel fuel rlp p s t l) as [[[item next']|]|] eqn:Ec;
        try discriminate.
      pose proof (consume_length_prefix_progress _ _ _ _ _ _ Ep) as (_ & Hl & Hs & _).
      pose proof (consume_payload_fuel_end _ _ _ _ _ _ _ _ Ec) as Hn'.
      pose proof (consume_list_loop_end _ _ _ _ _ _ _ _ H) as [-> Hne].
      assert (Hn0 : 0 <= next') by lia.
      assert (Hn1 : next' <= py_len rlp) by lia.
      destruct (IHl _ _ _ _ _ _ _ Hn0 H He) as (new & -> & Hjoin).
      destruct (IHp _ _ _ _ _ _ _ _ Hn Ep Ec Hn1) as [Henc Hrlp].
      exists (item :: new). split.
      * rewrite <- !app_assoc. cbn [app]. rewrite Hrlp.
        rewrite (py_slice_split rlp next next' end_) by lia. reflexivity.
      * cbn [map join]. rewrite Henc, Hjoin. cbn [bind].
        rewrite (py_slice_split rlp next next' end_) by lia. reflexivity.
    + destruct (end_ <? next) eqn:E2; [discriminate|].
      inv H. assert (e = end_) by lia. subst e.
      exists []. rewrite py_slice_empty, !app_nil_r. split; reflexivity.
Qed.

(** C2: a byte sequence [b] that decodes in strict mode ([consume_item]
    returns an item and the end offset [len(b)]) is the raw encoding of the
    bare item decoded from it. *)
Theorem encode_raw_consume_item (b : bytes) (d : decoded) :
  consume_item b 0 = Ok (d, py_len b) ->
  encode_raw (fst (_split_rlp_from_item d)) = Ok b.
Proof.
  unfold consume_item. intros H.
  destruct (consume_length_prefix b 0) as [[[[p t] l] s]|] eqn:Ep; [|discriminate].
  cbn [bind] in H.
  apply consume_payload_inv in H. destruct H as [fuel H].
  destruct (proj1 (decode_sound fuel) _ _ _ _ _ _ _ _ (Z.le_refl 0) Ep H (Z.le_refl _))
    as [Henc _].
  rewrite py_slice_all in Henc. exact Henc.
Qed.

(** ** What the encoder writes, the decoder reads *)

Lemma item_nested_ind (P : item -> Prop) :
  (forall b, P (Atomic b)) ->
  (forall xs, Forall P xs -> P (Sequence xs)) ->
  P Other ->
  forall t, P t.
Proof.
  intros HA HS HO.
  fix IH 1. intros [b|xs|].
  - apply HA.
  - apply HS. induction xs as [|x xs IHxs]; constructor.
    + apply IH.
    + exact IHxs.
  - exact HO.
Qed.

Lemma add_prefix_inv payload offset r :
  add_prefix payload offset = Ok r ->
  exists prefix,
    length_prefix (py_len payload) offset = Ok prefix /\ r = prefix ++ payload.
Proof.
  unfold add_prefix. intros H.
  destruct (length_prefix (py_len payload) offset) as [p|e].
  - inv H. now exists p.
  - destruct e; discriminate.
Qed.

Lemma py_slice_app_at {A : Type} (l1 l2 l3 : list A) (a b : Z) :
  a = py_len l1 -> b = a + py_len l2 ->
  py_slice (l1 ++ l2 ++ l3) a b = l2.
Proof. intros -> ->. apply py_slice_app_mid. Qed.

Lemma py_index_app_at {A : Type} (l1 l2 : list A) (x : A) (i : Z) :
  i = py_len l1 -> py_index (l1 ++ x :: l2) i = Ok x.
Proof. intros ->. apply py_index_app_mid. Qed.

(** The prefix written by [length_prefix] in front of a payload is read
    back by [consume_length_prefix], with the type and the length of the
    payload. *)
Lemma consume_length_prefix_framed pre p payload post t :
  length_prefix (py_len payload) (prefix_offset t) = Ok p ->
  (t = TBytes -> forall x, payload = [x] -> 128 <= byte.unsigned x) ->
  consume_length_prefix (pre ++ p ++ payload ++ post) (py_len pre) =
    Ok (p, t, py_len payload, py_len pre + py_len p).
Proof.
  intros Hp Hsingle.
  pose proof (py_len_nonneg payload) as Hl.
  assert (Ho : prefix_offset t = 128 \/ prefix_offset t = 192)
    by (destruct t; [left|right]; reflexivity).
  destruct (Z.lt_ge_cases (py_len payload) 56) as [Hshort|Hlong].
  - (* short form *)
    rewrite length_prefix_short in Hp by (destruct Ho; lia). inv Hp.
    set (b0 := prefix_offset t + py_len payload).
    assert (Hb0 : byte.unsigned (byte.of_Z b0) = b0).
    { apply byte_of_Z_small. subst b0. destruct Ho; lia. }
    unfold consume_length_prefix. cbn [app].
    rewrite py_index_app_mid. cbn [bind]. rewrite Hb0.
    assert (Hi : int_to_big_endian b0 = [byte.of_Z b0]).
    { rewrite <- Hb0 at 1. apply int_to_big_endian_byte. rewrite Hb0.
      subst b0. destruct Ho; lia. }
    unfold SHORT_STRING. rewrite Hi. rewrite py_len_cons, py_len_nil.
    destruct t; cbn [prefix_offset] in *; subst b0.
    + destruct (128 + py_len payload <? 128) eqn:C1; [lia|].
      destruct (128 + py_len payload <? 128 + 56) eqn:C2; [|lia].
      replace (128 + py_len payload - 128) with (py_len payload) by lia.
      replace (py_len pre + (1 + 0)) with (py_len pre + 1) by lia.
      destruct (py_len payload =? 1) eqn:C3; [|reflexivity].
      apply Z.eqb_eq in C3.
      destruct payload as [|x [|y r]].
      1:{ rewrite py_len_nil in C3. lia. }
      2:{ rewrite !py_len_cons in C3. pose proof (py_len_nonneg r). lia. }
      specialize (Hsingle eq_refl x eq_refl).
      cbn [app].
      change (pre ++ byte.of_Z (128 + py_len [x]) :: x :: post)
        with (pre ++ [byte.of_Z (128 + py_len [x])] ++ x :: post).
      rewrite app_assoc.
      rewrite (py_index_app_at (pre ++ [byte.of_Z (128 + py_len [x])]) post x).
      * cbn [bind]. destruct (byte.unsigned x <? 128) eqn:C4; [lia|reflexivity].
      * rewrite py_len_app, py_len_cons, py_len_nil. lia.
    + destruct (192 + py_len payload <? 128) eqn:C1; [lia|].
      destruct (192 + py_len payload <? 128 + 56) eqn:C2; [lia|].
      destruct (192 + py_len payload <? 192) eqn:C3; [lia|].
      destruct (192 + py_len payload <? 192 + 56) eqn:C4; [|lia].
      replace (192 + py_len payload - 192) with (py_len payload) by lia.
      replace (py_len pre + (1 + 0)) with (py_len pre + 1) by lia.
      reflexivity.
  - (* long form *)
    destruct (Z.lt_ge_cases (py_len payload) (2 ^ 64)) as [Hfit|Hbig].
    2:{ rewrite length_prefix_too_long in Hp by assumption. discriminate. }
    rewrite length_prefix_long in Hp by (destruct Ho; lia). inv Hp.
    pose proof (long_length_size (py_len payload) ltac:(lia)) as Hsz.
    pose proof (big_endian_to_int_of_bytes (py_len payload) ltac:(lia)) as Hback.
    destruct (int_to_big_endian_head (py_len payload) ltac:(lia))
      as (y & rest & HL & Hy).
    set (L := int_to_big_endian (py_len payload)) in *.
    set (b0 := prefix_offset t + 55 + py_len L).
    assert (Hb0 : byte.unsigned (byte.of_Z b0) = b0).
    { apply byte_of_Z_small. subst b0. destruct Ho; lia. }
    assert (Hi : int_to_big_endian b0 = [byte.of_Z b0]).
    { rewrite <- Hb0 at 1. apply int_to_big_endian_byte. rewrite Hb0.
      subst b0. destruct Ho; lia. }
    set (rlp := pre ++ (byte.of_Z b0 :: L) ++ payload ++ post).
    assert (Hzero : is_zero_byte (py_slice rlp (py_len pre + 1) (py_len pre + 2))
                    = false).
    { replace rlp
        with ((pre ++ [byte.of_Z b0]) ++ [y] ++ rest ++ payload ++ post).
      - rewrite (py_slice_app_at (pre ++ [byte.of_Z b0]) [y]).
        + cbn [is_zero_byte]. lia.
        + rewrite py_len_app, py_len_cons, py_len_nil. lia.
        + rewrite py_len_cons, py_len_nil. lia.
      - subst rlp. rewrite HL. rewrite <- !app_assoc. reflexivity. }
    assert (Hfield : py_slice rlp (py_len pre + 1) (py_len pre + 1 + py_len L) = L).
    { replace rlp with ((pre ++ [byte.of_Z b0]) ++ L ++ payload ++ post).
      - apply py_slice_app_at.
        + rewrite py_len_app, py_len_cons, py_len_nil. lia.
        + reflexivity.
      - subst rlp. rewrite <- !app_assoc. reflexivity. }
    unfold consume_length_prefix. subst rlp. cbn [app].
    rewrite py_index_app_mid. cbn [bind]. cbn [app] in Hzero, Hfield.
    rewrite Hb0, Hi. unfold SHORT_STRING. rewrite py_len_cons.
    destruct t; cbn [prefix_offset] in *; subst b0.
    + destruct (128 + 55 + py_len L <? 128) eqn:C1; [lia|].
      destruct (128 + 55 + py_len L <? 128 + 56) eqn:C2; [lia|].
      destruct (128 + 55 + py_len L <? 192) eqn:C3; [|lia].
      rewrite Hzero.
      replace (128 + 55 + py_len L - 183) with (py_len L) by lia.
      rewrite Hfield, Hback.
      destruct (py_len payload <? 56) eqn:C4; [lia|].
      replace (py_len pre + (1 + py_len L)) with (py_len pre + 1 + py_len L) by lia.
      reflexivity.
    + destruct (192 + 55 + py_len L <? 128) eqn:C1; [lia|].
      destruct (192 + 55 + py_len L <? 128 + 56) eqn:C2; [lia|].
      destruct (192 + 55 + py_len L <? 192) eqn:C3; [lia|].
      destruct (192 + 55 + py_len L <? 192 + 56) eqn:C5; [lia|].
      rewrite Hzero.
      replace (192 + 55 + py_len L - 192 - 56 + 1) with (py_len L) by lia.
      rewrite Hfield, Hback.
      destruct (py_len payload <? 56) eqn:C4; [lia|].
      replace (py_len pre + (1 + py_len L)) with (py_len pre + 1 + py_len L) by lia.
      reflexivity.
Qed.

Lemma consume_item_fuel_monotone fuel fuel' rlp start r :
  consume_item_fuel fuel rlp start = Some r ->
  (fuel <= fuel')%nat ->
  consume_item_fuel fuel' rlp start = Some r.
Proof.
  unfold consume_item_fuel. intros H Hle.
  destruct (consume_length_prefix rlp start) as [[[[p t] l] s]|]; [|exact H].
  exact (proj1 (fuel_monotone fuel) _ _ _ _ _ _ _ H Hle).
Qed.

Lemma consume_item_fuel_progress fuel rlp start d e :
  consume_item_fuel fuel rlp start = Some (Ok (d, e)) -> start + 1 <= e.
Proof.
  unfold consume_item_fuel. intros H.
  destruct (consume_length_prefix rlp start) as [[[[p t] l] s]|] eqn:Ep;
    [|discriminate].
  apply consume_length_prefix_progress in Ep.
  apply consume_payload_fuel_end in H. lia.
Qed.

Lemma consume_list_loop_step fuel rlp end_ items list_rlp next item next' :
  next < end_ ->
  consume_item_fuel fuel rlp next = Some (Ok (item, next')) ->
  consume_list_loop (S fuel) rlp end_ items list_rlp next =
    consume_list_loop fuel rlp end_ (items ++ [item])
      (list_rlp ++ rlp_of item) next'.
Proof.
  intros Hlt H. rewrite consume_list_loop_S.
  destruct (next <? end_) eqn:E; [|lia].
  unfold consume_item_fuel in H.
  destruct (consume_length_prefix rlp next) as [[[[p t] l] s]|]; [|discriminate].
  now rewrite H.
Qed.

Lemma consume_item_run fuel rlp start r :
  consume_item_fuel fuel rlp start = Some r -> consume_item rlp start = r.
Proof.
  unfold consume_item_fuel, consume_item. intros H.
  destruct (consume_length_prefix rlp start) as [[[[p t] l] s]|].
  - cbn [bind]. eapply consume_payload_run. exact H.
  - now inv H.
Qed.

Lemma encode_raw_Atomic_cases b r :
  encode_raw (Atomic b) = Ok r ->
  (exists x, b = [x] /\ byte.unsigned x < 128 /\ r = [x]) \/
  ((forall x, b = [x] -> 128 <= byte.unsigned x) /\ add_prefix b 128 = Ok r).
Proof.
  cbn [encode_raw]. intros H.
  destruct b as [|x [|y rest]].
  - right. split; [discriminate|exact H].
  - destruct (byte.unsigned x <? 128) eqn:E.
    + left. exists x. inv H. repeat split. lia.
    + right. split; [|exact H]. intros x' Hx'. inv Hx'. lia.
  - right. split; [discriminate|exact H].
Qed.

Lemma roundtrip_children xs :
  Forall reads_back xs ->
  forall payload, join (map encode_raw xs) = Ok payload ->
  forall pre post items acc, exists fuel ds,
    consume_list_loop fuel (pre ++ payload ++ post) (py_len pre + py_len payload)
      items acc (py_len pre)
      = Some (Ok (DList (items ++ ds) (acc ++ payload),
                  py_len pre + py_len payload)) /\
    map bare ds = xs.
Proof.
  induction 1 as [|x xs Hx Hxs IH]; intros payload Hjoin pre post items acc.
  - cbn in Hjoin. inv Hjoin. exists 1%nat, [].
    rewrite consume_list_loop_S, py_len_nil, Z.add_0_r, Z.ltb_irrefl, !app_nil_r.
    split; reflexivity.
  - cbn [map join] in Hjoin.
    destruct (encode_raw x) as [bx|] eqn:Ex; [|discriminate].
    destruct (join (map encode_raw xs)) as [br|] eqn:Er; [|discriminate].
    cbn [bind] in Hjoin. inv Hjoin.
    destruct (Hx bx Ex pre (br ++ post)) as (fuel1 & d1 & H1 & Hb1 & Hr1).
    destruct (IH br eq_refl (pre ++ bx) post (items ++ [d1]) (acc ++ rlp_of d1))
      as (fuel2 & ds & H2 & Hds).
    pose proof (consume_item_fuel_progress _ _ _ _ _ H1) as Hprog.
    pose proof (py_len_nonneg br) as Hbr.
    exists (S (Nat.max fuel1 fuel2)), (d1 :: ds).
    split; [|cbn [map]; now rewrite Hb1, Hds].
    rewrite <- app_assoc.
    rewrite (consume_list_loop_step _ _ _ _ _ _ d1 (py_len pre + py_len bx)).
    + rewrite py_len_app in *.
      replace (pre ++ bx ++ br ++ post) with ((pre ++ bx) ++ br ++ post)
        by (now rewrite <- app_assoc).
      pose proof (proj2 (fuel_monotone fuel2) _ _ _ _ _ _ (Nat.max fuel1 fuel2) H2
                    (Nat.le_max_r _ _)) as H3.
      replace (py_len pre + (py_len bx + py_len br))
        with (py_len pre + py_len bx + py_len br) by lia.
      rewrite H3, Hr1. rewrite <- !app_assoc. reflexivity.
    + rewrite py_len_app. lia.
    + eapply consume_item_fuel_monotone; [exact H1|apply Nat.le_max_l].
Qed.

Lemma roundtrip_item : forall t, reads_back t.
Proof.
  induction t as [b0|xs IH|] using item_nested_ind; intros b Henc pre post.
  - apply encode_raw_Atomic_cases in Henc.
    destruct Henc as [(x & -> & Hx & ->) | (Hsingle & Hadd)].
    + exists 0%nat, (DBytes [x] [x]). repeat split.
      unfold consume_item_fuel, consume_length_prefix. cbn [app].
      rewrite py_index_app_mid. cbn [bind].
      destruct (byte.unsigned x <? 128) eqn:E; [|lia].
      rewrite consume_payload_fuel_bytes.
      rewrite (py_slice_app_at pre [x] post) by reflexivity.
      reflexivity.
    + apply add_prefix_inv in Hadd. destruct Hadd as (p & Hp & ->).
      exists 0%nat, (DBytes b0 (p ++ b0)). repeat split.
      unfold consume_item_fuel. rewrite <- app_assoc.
      rewrite (consume_length_prefix_framed pre p b0 post TBytes Hp)
        by (intros _; exact Hsingle).
      rewrite consume_payload_fuel_bytes.
      replace (pre ++ p ++ b0 ++ post) with ((pre ++ p) ++ b0 ++ post)
        by (now rewrite <- app_assoc).
      rewrite (py_slice_app_at (pre ++ p) b0 post)
        by (rewrite ?py_len_app; reflexivity).
      rewrite py_len_app. do 3 f_equal. lia.
  - rewrite encode_raw_Sequence in Henc.
    destruct (join (map encode_raw xs)) as [payload|] eqn:Ej; [|discriminate].
    cbn [bind] in Henc.
    apply add_prefix_inv in Henc. destruct Henc as (p & Hp & ->).
    destruct (roundtrip_children xs IH payload Ej (pre ++ p) post [] p)
      as (fuel & ds & Hloop & Hds).
    exists (S fuel), (DList ds (p ++ payload)). repeat split.
    + unfold consume_item_fuel. rewrite <- app_assoc.
      rewrite (consume_length_prefix_framed pre p payload post TList Hp)
        by discriminate.
      rewrite consume_payload_fuel_list.
      replace (pre ++ p ++ payload ++ post) with ((pre ++ p) ++ payload ++ post)
        by (now rewrite <- app_assoc).
      rewrite py_len_app in *. rewrite Hloop. cbn [app].
      do 3 f_equal. lia.
    + rewrite bare_DList. now rewrite Hds.
  - discriminate.
Qed.

(** The encoder succeeds on every tree in range, and the encoding has
    the length [encoded_length] computes. *)
Lemma prefix_length_ok n offset :
  0 <= n < 2 ^ 64 -> offset = 128 \/ offset = 192 ->
  exists p, length_prefix n offset = Ok p /\ py_len p = prefix_length n.
Proof.
  intros Hn Ho. unfold prefix_length.
  destruct (n <? 56) eqn:E.
  - exists [byte.of_Z (offset + n)]. split; [|reflexivity].
    apply length_prefix_short; lia.
  - eexists. split.
    + apply length_prefix_long; lia.
    + rewrite py_len_cons. reflexivity.
Qed.

Lemma encode_raw_total t :
  tree_in_range t ->
  exists b, encode_raw t = Ok b /\ py_len b = encoded_length t.
Proof.
  induction t as [b0|xs IH|] using item_nested_ind; intros Hr.
  - inversion Hr as [b' Hfit|]; subst b'.
    cbn [payload_length] in *. cbn [encode_raw encoded_length].
    destruct (match b0 with [x] => byte.unsigned x <? 128 | _ => false end) eqn:E.
    + exists b0. split; [reflexivity|].
      destruct b0 as [|x [|y r]]; try discriminate. reflexivity.
    + destruct (prefix_length_ok (py_len b0) 128) as (p & Hp & Hlen);
        [pose proof (py_len_nonneg b0); lia | now left |].
      exists (p ++ b0). split.
      * now apply add_prefix_ok.
      * rewrite py_len_app. lia.
  - inversion Hr as [|xs' Hall Hsum]; subst xs'. cbn [payload_length] in *.
    assert (Hj : exists payload,
               join (map encode_raw xs) = Ok payload /\
               py_len payload = fold_right Z.add 0 (map encoded_length xs)).
    { clear Hsum Hr. induction xs as [|x xs IHxs].
      - exists []. split; reflexivity.
      - inversion IH as [|x' xs' Hx Hxs]; subst x' xs'.
        inversion Hall as [|x' xs' Rx Rxs]; subst x' xs'.
        destruct (Hx Rx) as (bx & Hbx & Hlx).
        destruct (IHxs Hxs Rxs) as (br & Hbr & Hlr).
        exists (bx ++ br). cbn [map join fold_right].
        rewrite Hbx, Hbr. cbn [bind]. split; [reflexivity|].
        rewrite py_len_app. lia. }
    destruct Hj as (payload & Hj & Hlen).
    destruct (prefix_length_ok (py_len payload) 192) as (p & Hp & Hpl);
      [pose proof (py_len_nonneg payload); lia | now right |].
    exists (p ++ payload). split.
    + rewrite encode_raw_Sequence, Hj. cbn [bind]. now apply add_prefix_ok.
    + cbn [encoded_length]. rewrite py_len_app, Hpl, Hlen. reflexivity.
  - inv Hr.
Qed.

(** C1: for every tree of byte strings whose payloads are all shorter
    than [2^64] bytes, [encode_raw] succeeds and decoding its result from
    offset 0 returns a decorated tree whose bare tree is the tree encoded,
    with the end offset equal to the length of the encoding. *)
Theorem consume_item_encode_raw (t : item) :
  tree_in_range t ->
  exists b d,
    encode_raw t = Ok b /\
    consume_item b 0 = Ok (d, py_len b) /\
    fst (_split_rlp_from_item d) = t.
Proof.
  intros Hr.
  destruct (encode_raw_total t Hr) as (b & Hb & _).
  destruct (roundtrip_item t b Hb [] []) as (fuel & d & Hd & Hbare & _).
  exists b, d. split; [exact Hb|]. split; [|exact Hbare].
  cbn [app] in Hd. rewrite app_nil_r, py_len_nil in Hd.
  apply consume_item_run in Hd. exact Hd.
Qed.

(** ** Canonical form *)

Lemma consume_item_prefix_raises rlp start e :
  consume_length_prefix rlp start = Raise e -> consume_item rlp start = Raise e.
Proof. unfold consume_item. now intros ->. Qed.

(** C3: reading a prefix enforces the canonicality checks.  A short-string
    prefix [0x81] in front of a byte below [0x80] is refused; a long-form
    string or list whose length field starts with [0x00] is refused; a
    long-form string or list whose length field decodes to less than 56 is
    refused.  The refusal is a [DecodingError] of the prefix reader that
    [consume_item] and [decode] (strict or not) pass on: no value is
    returned.  [0x81 7F] is refused in this way. *)
Theorem canonicality_enforced (rlp : bytes) (start : Z) (x0 : byte) :
  py_index rlp start = Ok x0 ->
  (byte.unsigned x0 = 129 ->
   forall x1, py_index rlp (start + 1) = Ok x1 -> byte.unsigned x1 < 128 ->
   consume_length_prefix rlp start = Raise (DecodingError ShortStringSingleByte)) /\
  (184 <= byte.unsigned x0 < 192 \/ 248 <= byte.unsigned x0 ->
   py_slice rlp (start + 1) (start + 2) = [Byte.x00] ->
   consume_length_prefix rlp start = Raise (DecodingError LengthStartsWithZero)) /\
  (184 <= byte.unsigned x0 < 192 ->
   big_endian_to_int
     (py_slice rlp (start + 1) (start + 1 + (byte.unsigned x0 - 183))) < 56 ->
   consume_length_prefix rlp start =
     Raise (DecodingError
              (if is_zero_byte (py_slice rlp (start + 1) (start + 2))
               then LengthStartsWithZero else LongStringForShort))) /\
  (248 <= byte.unsigned x0 ->
   big_endian_to_int
     (py_slice rlp (start + 1) (start + 1 + (byte.unsigned x0 - 247))) < 56 ->
   consume_length_prefix rlp start =
     Raise (DecodingError
              (if is_zero_byte (py_slice rlp (start + 1) (start + 2))
               then LengthStartsWithZero else LongListForShort))) /\
  (forall m, consume_length_prefix rlp start = Raise (DecodingError m) ->
             consume_item rlp start = Raise (DecodingError m)) /\
  (forall m strict, consume_length_prefix rlp 0 = Raise (DecodingError m) ->
                    decode rlp strict = Raise (DecodingError m)) /\
  (forall strict,
     decode [Byte.x81; Byte.x7f] strict
       = Raise (DecodingError ShortStringSingleByte)).
Proof.
  intros H0.
  pose proof (byte.unsigned_range x0) as Hx. change (2 ^ 8) with 256 in Hx.
  repeat apply conj; try (intros [|]; vm_compute; reflexivity).
  - intros Hb x1 H1 Hx1. unfold consume_length_prefix, SHORT_STRING.
    rewrite H0. cbn [bind]. rewrite Hb. cbn. rewrite H1. cbn [bind].
    destruct (byte.unsigned x1 <? 128) eqn:E; [reflexivity|lia].
  - intros Hb Hz. unfold consume_length_prefix, SHORT_STRING.
    rewrite H0. cbn [bind]. rewrite Hz.
    destruct (byte.unsigned x0 <? 128) eqn:C1; [lia|].
    destruct (byte.unsigned x0 <? 128 + 56) eqn:C2; [lia|].
    destruct (byte.unsigned x0 <? 192) eqn:C3; [reflexivity|].
    destruct (byte.unsigned x0 <? 192 + 56) eqn:C4; [lia|reflexivity].
  - intros Hb Hl. unfold consume_length_prefix, SHORT_STRING.
    rewrite H0. cbn [bind].
    destruct (byte.unsigned x0 <? 128) eqn:C1; [lia|].
    destruct (byte.unsigned x0 <? 128 + 56) eqn:C2; [lia|].
    destruct (byte.unsigned x0 <? 192) eqn:C3; [|lia].
    destruct (is_zero_byte (py_slice rlp (start + 1) (start + 2))); [reflexivity|].
    cbv zeta.
    destruct (big_endian_to_int
                (py_slice rlp (start + 1) (start + 1 + (byte.unsigned x0 - 183)))
              <? 56) eqn:C5; [reflexivity|lia].
  - intros Hb Hl. unfold consume_length_prefix, SHORT_STRING.
    rewrite H0. cbn [bind].
    destruct (byte.unsigned x0 <? 128) eqn:C1; [lia|].
    destruct (byte.unsigned x0 <? 128 + 56) eqn:C2; [lia|].
    destruct (byte.unsigned x0 <? 192) eqn:C3; [lia|].
    destruct (byte.unsigned x0 <? 192 + 56) eqn:C4; [lia|].
    destruct (is_zero_byte (py_slice rlp (start + 1) (start + 2))); [reflexivity|].
    cbv zeta.
    replace (byte.unsigned x0 - 192 - 56 + 1) with (byte.unsigned x0 - 247) by lia.
    destruct (big_endian_to_int
                (py_slice rlp (start + 1) (start + 1 + (byte.unsigned x0 - 247)))
              <? 56) eqn:C5; [reflexivity|lia].
  - intros m. apply consume_item_prefix_raises.
  - intros m strict H. unfold decode.
    now rewrite (consume_item_prefix_raises _ _ _ H).
Qed.

Lemma canonicality_enforced_witness :
  consume_length_prefix [Byte.x81; Byte.x7f] 0
    = Raise (DecodingError ShortStringSingleByte) /\
  consume_length_prefix [Byte.xb9; Byte.x00; Byte.x40] 0
    = Raise (DecodingError LengthStartsWithZero) /\
  consume_length_prefix [Byte.xb8; Byte.x37] 0
    = Raise (DecodingError LongStringForShort) /\
  consume_length_prefix [Byte.xf8; Byte.x37] 0
    = Raise (DecodingError LongListForShort).
Proof.
  repeat apply conj.
  - apply (proj1 (canonicality_enforced [Byte.x81; Byte.x7f] 0 Byte.x81 eq_refl))
      with (x1 := Byte.x7f);
      [reflexivity | reflexivity | vm_compute; reflexivity].
  - apply (proj1 (proj2 (canonicality_enforced
                           [Byte.xb9; Byte.x00; Byte.x40] 0 Byte.xb9 eq_refl)));
      [left; vm_compute; intuition congruence | reflexivity].
  - apply (proj1 (proj2 (proj2 (canonicality_enforced
                                  [Byte.xb8; Byte.x37] 0 Byte.xb8 eq_refl))));
      [vm_compute; intuition congruence | vm_compute; reflexivity].
  - apply (proj1 (proj2 (proj2 (proj2 (canonicality_enforced
                                         [Byte.xf8; Byte.x37] 0 Byte.xf8 eq_refl)))));
      [vm_compute; intuition congruence | vm_compute; reflexivity].
Defined.

(** ** The length announced by a list *)

Lemma consume_item_inv rlp start r :
  consume_item rlp start = r ->
  exists fuel, consume_item_fuel fuel rlp start = Some r.
Proof.
  unfold consume_item, consume_item_fuel. intros H.
  destruct (consume_length_prefix rlp start) as [[[[p t] l] s]|].
  - cbn [bind] in H. now apply consume_payload_inv.
  - exists 0%nat. now subst.
Qed.

Lemma consume_list_loop_children fuel :
  forall rlp end_ items list_rlp next d e,
    consume_list_loop fuel rlp end_ items list_rlp next = Some (Ok (d, e)) ->
    exists new,
      consumed_children rlp end_ next new e /\
      d = DList (items ++ new) (list_rlp ++ List.concat (map rlp_of new)).
Proof.
  induction fuel as [|fuel IH]; intros rlp end_ items list_rlp next d e H.
  - discriminate.
  - rewrite consume_list_loop_S in H.
    destruct (next <? end_) eqn:E1.
    + destruct (consume_item_fuel fuel rlp next) as [r|] eqn:Ei.
      * pose proof (consume_item_run _ _ _ _ Ei) as Hrun.
        unfold consume_item_fuel in Ei.
        destruct (consume_length_prefix rlp next) as [[[[p t] l] s]|];
          [|discriminate].
        rewrite Ei in H. destruct r as [[child next']|]; [|discriminate].
        apply IH in H. destruct H as (new & Hnew & ->).
        exists (child :: new). split.
        -- econstructor; [lia | exact Hrun | exact Hnew].
        -- cbn [map List.concat]. now rewrite <- !app_assoc.
      * unfold consume_item_fuel in Ei.
        destruct (consume_length_prefix rlp next) as [[[[p t] l] s]|];
          [|discriminate].
        rewrite Ei in H. discriminate.
    + destruct (end_ <? next) eqn:E2; [discriminate|].
      inv H. exists []. split; [constructor|].
      cbn [map List.concat]. now rewrite !app_nil_r.
Qed.

Lemma consumed_children_loop rlp end_ next new to :
  consumed_children rlp end_ next new to ->
  ~ to < end_ ->
  forall items list_rlp, exists fuel,
    consume_list_loop fuel rlp end_ items list_rlp next =
      Some (if end_ <? to
            then Raise (DecodingError ListLengthTooSmall)
            else Ok (DList (items ++ new) (list_rlp ++ List.concat (map rlp_of new)), to)).
Proof.
  induction 1 as [from | from next to child rest Hlt Hitem Hrest IH];
    intros Hto items list_rlp.
  - exists 1%nat. rewrite consume_list_loop_S.
    destruct (from <? end_) eqn:E1; [lia|].
    cbn [map List.concat]. rewrite !app_nil_r.
    now destruct (end_ <? from).
  - apply consume_item_inv in Hitem. destruct Hitem as [fuel1 H1].
    destruct (IH Hto (items ++ [child]) (list_rlp ++ rlp_of child)) as [fuel2 H2].
    exists (S (Nat.max fuel1 fuel2)).
    rewrite (consume_list_loop_step _ _ _ _ _ _ child next Hlt).
    + rewrite (proj2 (fuel_monotone fuel2) _ _ _ _ _ _ (Nat.max fuel1 fuel2) H2)
        by apply Nat.le_max_r.
      cbn [map List.concat]. now rewrite <- !app_assoc.
    + eapply consume_item_fuel_monotone; [exact H1|apply Nat.le_max_l].
Qed.

(** C9: the loop over the children of a list stops when the children
    consumed reach the announced end.  If [consume_payload] returns a list,
    its children end exactly at [start + length]; if the children consumed
    one after the other end beyond [start + length], [consume_payload]
    raises 'List length prefix announced a too small length' and returns no
    list; if they end at [start + length], it returns them. *)
Theorem list_length_enforced (rlp prefix : bytes) (start length : Z) :
  (forall d e,
     consume_payload rlp prefix start TList length = Ok (d, e) ->
     e = start + length /\
     exists items,
       consumed_children rlp (start + length) start items (start + length) /\
       d = DList items (prefix ++ List.concat (map rlp_of items))) /\
  (forall items to,
     consumed_children rlp (start + length) start items to ->
     start + length < to ->
     consume_payload rlp prefix start TList length
       = Raise (DecodingError ListLengthTooSmall)) /\
  (forall items,
     consumed_children rlp (start + length) start items (start + length) ->
     consume_payload rlp prefix start TList length
       = Ok (DList items (prefix ++ List.concat (map rlp_of items)), start + length)).
Proof.
  repeat apply conj.
  - intros d e H. apply consume_payload_inv in H. destruct H as [[|fuel] H];
      [discriminate|].
    rewrite consume_payload_fuel_list in H.
    pose proof (consume_list_loop_end _ _ _ _ _ _ _ _ H) as [-> _].
    split; [reflexivity|].
    apply consume_list_loop_children in H. destruct H as (new & Hnew & ->).
    exists new. split; [exact Hnew|reflexivity].
  - intros items to Hc Hover.
    destruct (consumed_children_loop _ _ _ _ _ Hc ltac:(lia) [] prefix) as [fuel H].
    destruct (start + length <? to) eqn:E; [|lia].
    apply (consume_payload_run (S fuel)). exact H.
  - intros items Hc.
    destruct (consumed_children_loop _ _ _ _ _ Hc ltac:(lia) [] prefix) as [fuel H].
    rewrite Z.ltb_irrefl in H.
    apply (consume_payload_run (S fuel)). exact H.
Qed.

Lemma list_length_enforced_witness :
  consume_payload [Byte.xc1; Byte.x82; Byte.x61; Byte.x62] [Byte.xc1] 1 TList 1
    = Raise (DecodingError ListLengthTooSmall).
Proof.
  apply (proj1 (proj2 (list_length_enforced
                         [Byte.xc1; Byte.x82; Byte.x61; Byte.x62] [Byte.xc1] 1 1))
           [DBytes [Byte.x61; Byte.x62] [Byte.x82; Byte.x61; Byte.x62]] 4).
  - eapply consumed_next.
    + vm_compute. reflexivity.
    + vm_compute. reflexivity.
    + apply consumed_none.
  - vm_compute. reflexivity.
Defined.

(** ** Round trip: examples *)

Lemma consume_item_encode_raw_witness :
  exists b d,
    encode_raw (Sequence [Atomic [Byte.x63; Byte.x61; Byte.x74];
                          Atomic [Byte.x64; Byte.x6f; Byte.x67]]) = Ok b /\
    consume_item b 0 = Ok (d, py_len b) /\
    fst (_split_rlp_from_item d)
      = Sequence [Atomic [Byte.x63; Byte.x61; Byte.x74];
                  Atomic [Byte.x64; Byte.x6f; Byte.x67]].
Proof.
  apply (consume_item_encode_raw
           (Sequence [Atomic [Byte.x63; Byte.x61; Byte.x74];
                      Atomic [Byte.x64; Byte.x6f; Byte.x67]])).
  apply range_Sequence.
  - repeat constructor.
  - vm_compute. reflexivity.
Defined.

Lemma encode_raw_consume_item_witness :
  encode_raw
    (fst (_split_rlp_from_item
            (DList [DBytes [Byte.x63; Byte.x61; Byte.x74]
                      [Byte.x83; Byte.x63; Byte.x61; Byte.x74];
                    DBytes [Byte.x64; Byte.x6f; Byte.x67]
                      [Byte.x83; Byte.x64; Byte.x6f; Byte.x67]]
               [Byte.xc8; Byte.x83; Byte.x63; Byte.x61; Byte.x74;
                Byte.x83; Byte.x64; Byte.x6f; Byte.x67])))
  = Ok [Byte.xc8; Byte.x83; Byte.x63; Byte.x61; Byte.x74;
        Byte.x83; Byte.x64; Byte.x6f; Byte.x67].
Proof.
  apply (encode_raw_consume_item
           [Byte.xc8; Byte.x83; Byte.x63; Byte.x61; Byte.x74;
            Byte.x83; Byte.x64; Byte.x6f; Byte.x67]).
  vm_compute. reflexivity.
Defined.

(** ** Truncated input *)

(** C4: what [decode] does on inputs that end too early.  A missing prefix
    byte, or a missing byte after [0x81], is reported as 'RLP string too
    short'.  A payload that extends beyond the input is not: [0x83 61 62]
    announces three bytes and holds two; without [strict] the two bytes are
    returned, with [strict] the error is the one about superfluous bytes
    (with the count -1).  A truncated length field ([0xB8] alone) is
    reported as a long prefix used for a short string. *)
Theorem decode_truncated :
  (forall strict, decode [] strict = Raise (DecodingError StringTooShort)) /\
  (forall strict, decode [Byte.x81] strict = Raise (DecodingError StringTooShort)) /\
  decode [Byte.x83; Byte.x61; Byte.x62] false = Ok (Atomic [Byte.x61; Byte.x62]) /\
  decode [Byte.x83; Byte.x61; Byte.x62] true
    = Raise (DecodingError (SuperfluousBytes (-1))) /\
  (forall strict,
     decode [Byte.xb8] strict = Raise (DecodingError LongStringForShort)).
Proof.
  repeat apply conj; try (intros [|]); vm_compute; reflexivity.
Qed.

(** C10: there is an input whose root string prefix announces more payload
    bytes than remain, on which [decode] without [strict] raises nothing
    and returns a leaf shorter than announced: the leaf is the slice
    [rlp[start:start + length]], which stops at the end of the input. *)
Theorem decode_truncated_leaf :
  exists (rlp prefix leaf : bytes) (length start : Z),
    consume_length_prefix rlp 0 = Ok (prefix, TBytes, length, start) /\
    py_len rlp - start < length /\
    decode rlp false = Ok (Atomic leaf) /\
    leaf = py_slice rlp start (start + length) /\
    py_len leaf < length.
Proof.
  exists [Byte.x83; Byte.x61; Byte.x62], [Byte.x83], [Byte.x61; Byte.x62], 3, 1.
  repeat apply conj; vm_compute; reflexivity.
Qed.

(** ** Choice of a sedes *)

Lemma infer_sedes_chain obj :
  infer_sedes obj =
    match class_is_sedes obj with
    | Some cls => Ok (SedesClass cls)
    | None =>
        if unsigned_int_test obj then Ok big_endian_int
        else if is_valid_type obj then Ok binary
        else if sequence_test obj then
          elements <- collect (map infer_sedes (elements_of obj)) ;;
          Ok (SedesList elements)
        else if isinstance_bool obj then Ok boolean
        else if isinstance_str obj then Ok text
        else Raise TypeError
    end.
Proof.
  destruct obj as [|b|n|b|s|xs|cls xs cached]; reflexivity.
Qed.

(** C7: [infer_sedes] tries its rules in order and the first that applies
    decides: the class of the object when it is a sedes; [big_endian_int]
    for an integer that is not a boolean and not negative; [binary] for a
    byte string; a [List] of the sedes inferred for the elements for a
    sequence that is not a text; [boolean] for a boolean; [text] for a
    text; otherwise [TypeError].  Every boolean gets [boolean], never
    [big_endian_int]. *)
Theorem infer_sedes_rules (obj : pyobj) :
  (forall cls, class_is_sedes obj = Some cls ->
               infer_sedes obj = Ok (SedesClass cls)) /\
  (class_is_sedes obj = None ->
   (unsigned_int_test obj = true -> infer_sedes obj = Ok big_endian_int) /\
   (unsigned_int_test obj = false ->
    (is_valid_type obj = true -> infer_sedes obj = Ok binary) /\
    (is_valid_type obj = false ->
     (sequence_test obj = true ->
      infer_sedes obj =
        (elements <- collect (map infer_sedes (elements_of obj)) ;;
         Ok (SedesList elements))) /\
     (sequence_test obj = false ->
      (isinstance_bool obj = true -> infer_sedes obj = Ok boolean) /\
      (isinstance_bool obj = false ->
       (isinstance_str obj = true -> infer_sedes obj = Ok text) /\
       (isinstance_str obj = false -> infer_sedes obj = Raise TypeError)))))) /\
  (forall b, infer_sedes (PyBool b) = Ok boolean /\
             infer_sedes (PyBool b) <> Ok big_endian_int).
Proof.
  split; [|split].
  - intros cls H. rewrite infer_sedes_chain, H. reflexivity.
  - intros H0. rewrite infer_sedes_chain, H0.
    split; [intros ->; reflexivity|intros ->].
    split; [intros ->; reflexivity|intros ->].
    split; [intros ->; reflexivity|intros ->].
    split; [intros ->; reflexivity|intros ->].
    split; intros ->; reflexivity.
  - intros b. split; [reflexivity|discriminate].
Qed.

Lemma infer_sedes_rules_witness :
  infer_sedes (PyInt 1024) = Ok big_endian_int /\
  infer_sedes (PyInt (-1)) = Raise TypeError /\
  infer_sedes (PyList [PyBool true; PyBytes [Byte.x61]; PyStr "a"%string])
    = Ok (SedesList [boolean; binary; text]) /\
  infer_sedes (PyInstance {| cls_is_sedes := true; cls_is_sequence := true;
                             cls_is_serializable := true |} [PyInt 1] None)
    = Ok (SedesClass {| cls_is_sedes := true; cls_is_sequence := true;
                        cls_is_serializable := true |}).
Proof.
  repeat apply conj.
  - apply (proj1 (proj1 (proj2 (infer_sedes_rules (PyInt 1024))) eq_refl)).
    reflexivity.
  - apply (proj2 (proj2 (proj2 (proj2 (proj2 (proj1 (proj2
             (infer_sedes_rules (PyInt (-1)))) eq_refl) eq_refl) eq_refl)
             eq_refl) eq_refl)).
    reflexivity.
  - apply (proj1 (proj2 (proj2 (proj1 (proj2
             (infer_sedes_rules
                (PyList [PyBool true; PyBytes [Byte.x61]; PyStr "a"%string]))) eq_refl)
             eq_refl) eq_refl)).
    reflexivity.
  - apply (proj1 (infer_sedes_rules
             (PyInstance {| cls_is_sedes := true; cls_is_sequence := true;
                            cls_is_serializable := true |} [PyInt 1] None))).
    reflexivity.
Defined.

(** ** The cache of [encode] *)

Lemma infer_sedes_with_cached_rlp obj cached :
  infer_sedes (with_cached_rlp obj cached) = infer_sedes obj.
Proof. destruct obj; reflexivity. Qed.

Lemma as_item_with_cached_rlp obj cached :
  as_item (with_cached_rlp obj cached) = as_item obj.
Proof. destruct obj; reflexivity. Qed.

Lemma set_cached_rlp_same obj c :
  isinstance_Serializable obj = true ->
  get_cached_rlp obj = Some c ->
  set_cached_rlp obj c = obj.
Proof.
  destruct obj; try discriminate. cbn. intros _ H. congruence.
Qed.

(** C8: [encode] and [_cached_rlp].  (1) For a record whose [_cached_rlp]
    is not empty and no sedes given, [encode] returns the cached bytes,
    whatever the serializers are, and leaves the object as it is.  (2) When
    [encode] returns [r], the object is left with [_cached_rlp = r] if it is
    a record, [cache] is true and no sedes was given, and is left unchanged
    otherwise.  (3) When [encode] raises, the object is unchanged.  (4) With
    a sedes given the object is unchanged, and (5) the result does not depend
    on the content of [_cached_rlp], provided the serializers do not look at
    it. *)
Theorem encode_cache
    (serialize : sedes -> pyobj -> result item) (truth : sedes -> bool)
    (obj : pyobj) (sedes_ : option sedes) (infer_serializer cache : bool) :
  (isinstance_Serializable obj = true ->
   forall c, get_cached_rlp obj = Some c -> c <> [] ->
   encode serialize truth obj None infer_serializer cache = (Ok c, obj)) /\
  (forall r obj',
     encode serialize truth obj sedes_ infer_serializer cache = (Ok r, obj') ->
     obj' = if isinstance_Serializable obj && cache && is_None sedes_
            then set_cached_rlp obj r else obj) /\
  (forall e obj',
     encode serialize truth obj sedes_ infer_serializer cache = (Raise e, obj') ->
     obj' = obj) /\
  (forall s,
     snd (encode serialize truth obj (Some s) infer_serializer cache) = obj) /\
  ((forall s o c, serialize s (with_cached_rlp o c) = serialize s o) ->
   forall s c,
     fst (encode serialize truth (with_cached_rlp obj c) (Some s)
            infer_serializer cache)
     = fst (encode serialize truth obj (Some s) infer_serializer cache)).
Proof.
  repeat apply conj.
  - intros Hrec c Hc Hne. unfold encode. rewrite Hrec, Hc. cbn [is_None].
    destruct c as [|x c]; [congruence|reflexivity].
  - intros r obj' H. unfold encode in H.
    assert (G : forall really,
      encode_item serialize truth obj sedes_ infer_serializer really = (Ok r, obj') ->
      obj' = if really then set_cached_rlp obj r else obj).
    { intros really. unfold encode_item.
      destruct (it <- serialized serialize truth obj sedes_ infer_serializer ;;
                encode_raw it); intros G; now inv G. }
    destruct (isinstance_Serializable obj) eqn:Hrec; cbn [andb].
    + destruct (is_None sedes_) eqn:Hnone.
      * destruct (get_cached_rlp obj) as [[|x c]|] eqn:Hc.
        -- apply G in H. now rewrite andb_true_r in *.
        -- inv H. destruct cache; cbn [andb];
             [now rewrite set_cached_rlp_same|reflexivity].
        -- apply G in H. now rewrite andb_true_r in *.
      * apply G in H. now rewrite andb_false_r in *.
    + now apply G in H.
  - intros e obj' H. unfold encode in H.
    assert (G : forall really,
      encode_item serialize truth obj sedes_ infer_serializer really
        = (Raise e, obj') -> obj' = obj).
    { intros really. unfold encode_item.
      destruct (it <- serialized serialize truth obj sedes_ infer_serializer ;;
                encode_raw it); intros G; now inv G. }
    destruct (isinstance_Serializable obj).
    + destruct (is_None sedes_).
      * destruct (get_cached_rlp obj) as [[|x c]|]; try discriminate;
          now apply G in H.
      * now apply G in H.
    + now apply G in H.
  - intros s. unfold encode. cbn [is_None]. rewrite andb_false_r.
    unfold encode_item.
    destruct (isinstance_Serializable obj);
      destruct (it <- serialized serialize truth obj (Some s) infer_serializer ;;
                encode_raw it); reflexivity.
  - intros Hser s c. unfold encode. cbn [is_None]. rewrite andb_false_r.
    assert (G : forall really,
      fst (encode_item serialize truth (with_cached_rlp obj c) (Some s)
             infer_serializer really)
      = fst (encode_item serialize truth obj (Some s) infer_serializer false)).
    { intros really. unfold encode_item, serialized.
      rewrite Hser, infer_sedes_with_cached_rlp, as_item_with_cached_rlp.
      destruct (truth s).
      - destruct (it <- serialize s obj ;; encode_raw it); reflexivity.
      - destruct infer_serializer.
        + destruct (infer_sedes obj) as [s'|]; cbn [bind].
          * rewrite Hser.
            destruct (it <- serialize s' obj ;; encode_raw it); reflexivity.
          * reflexivity.
        + cbn [bind]. destruct (encode_raw (as_item obj)); reflexivity. }
    destruct (isinstance_Serializable (with_cached_rlp obj c));
      destruct (isinstance_Serializable obj); apply G.
Qed.

Lemma encode_cache_witness :
  encode (fun _ o => Ok (as_item o)) (fun _ => true)
    (PyInstance {| cls_is_sedes := true; cls_is_sequence := true;
                   cls_is_serializable := true |} [] (Some [Byte.xc0]))
    None true true
  = (Ok [Byte.xc0],
     PyInstance {| cls_is_sedes := true; cls_is_sequence := true;
                   cls_is_serializable := true |} [] (Some [Byte.xc0])) /\
  PyInstance {| cls_is_sedes := true; cls_is_sequence := true;
                cls_is_serializable := true |} [] (Some [Byte.xc0])
  = set_cached_rlp
      (PyInstance {| cls_is_sedes := true; cls_is_sequence := true;
                     cls_is_serializable := true |} [] None) [Byte.xc0].
Proof.
  split.
  - apply (proj1 (encode_cache (fun _ o => Ok (as_item o)) (fun _ => true)
                    (PyInstance {| cls_is_sedes := true; cls_is_sequence := true;
                                   cls_is_serializable := true |} []
                       (Some [Byte.xc0]))
                    None true true) eq_refl [Byte.xc0] eq_refl).
    discriminate.
  - apply (proj1 (proj2 (encode_cache (fun _ o => Ok (as_item o)) (fun _ => true)
                           (PyInstance {| cls_is_sedes := true;
                                          cls_is_sequence := true;
                                          cls_is_serializable := true |} [] None)
                           None true true)) [Byte.xc0]).
    vm_compute. reflexivity.
Defined.

(** * Further properties of the codec *)

(** ** When [encode_raw] succeeds *)

Lemma length_prefix_ok_range n offset p :
  length_prefix n offset = Ok p -> n < 2 ^ 64.
Proof.
  intros H. destruct (Z.lt_ge_cases n (2 ^ 64)) as [Hlt|Hge]; [exact Hlt|].
  rewrite length_prefix_too_long in H by exact Hge. discriminate.
Qed.

Lemma join_encoded xs payload :
  join (map encode_raw xs) = Ok payload ->
  Forall (fun x => exists b, encode_raw x = Ok b) xs.
Proof.
  revert payload. induction xs as [|x xs IH]; intros payload H.
  - constructor.
  - cbn [map join] in H.
    destruct (encode_raw x) as [bx|] eqn:Ex; [|discriminate].
    destruct (join (map encode_raw xs)) as [br|] eqn:Er; [|discriminate].
    constructor; [now exists bx | now apply (IH br)].
Qed.








(** ** Encodings are self-delimiting and canonical *)

(** X3: an encoding is read back wherever it stands.  If [b] is the
    encoding of [t], then in any input that holds [b] after [pre] and
    before [post], [consume_item] at the offset [len(pre)] returns [t] as
    the bare item, [b] as the encoding attached to it, and the offset right
    after [b]. *)
Theorem consume_item_at_offset (t : item) (b pre post : bytes) :
  encode_raw t = Ok b ->
  exists d,
    consume_item (pre ++ b ++ post) (py_len pre)
      = Ok (d, py_len pre + py_len b) /\
    fst (_split_rlp_from_item d) = t /\
    rlp_of d = b.
Proof.
  intros Hb.
  destruct (roundtrip_item t b Hb pre post) as (fuel & d & Hd & Hbare & Hrlp).
  exists d. split; [|split; assumption].
  eapply consume_item_run. exact Hd.
Qed.

Lemma consume_item_at_offset_witness :
  exists d,
    consume_item ([Byte.xff] ++ [Byte.x82; Byte.x04; Byte.x00] ++ [Byte.x00])
      (py_len [Byte.xff])
      = Ok (d, py_len [Byte.xff] + py_len [Byte.x82; Byte.x04; Byte.x00]) /\
    fst (_split_rlp_from_item d) = Atomic [Byte.x04; Byte.x00] /\
    rlp_of d = [Byte.x82; Byte.x04; Byte.x00].
Proof.
  apply (consume_item_at_offset (Atomic [Byte.x04; Byte.x00])).
  vm_compute. reflexivity.
Defined.

(** X4: [encode_raw] is injective: two items with the same encoding are
    the same item. *)
Theorem encode_raw_injective (t1 t2 : item) (b : bytes) :
  encode_raw t1 = Ok b -> encode_raw t2 = Ok b -> t1 = t2.
Proof.
  intros H1 H2.
  destruct (roundtrip_item t1 b H1 [] []) as (f1 & d1 & Hd1 & Hb1 & _).
  destruct (roundtrip_item t2 b H2 [] []) as (f2 & d2 & Hd2 & Hb2 & _).
  apply consume_item_run in Hd1. apply consume_item_run in Hd2.
  rewrite Hd1 in Hd2. inv Hd2. reflexivity.
Qed.

Lemma encode_raw_injective_witness :
  Sequence [Atomic []] = Sequence [Atomic []].
Proof.
  apply (encode_raw_injective _ _ [Byte.xc1; Byte.x80]);
    vm_compute; reflexivity.
Defined.

Lemma add_prefix_first_byte payload offset b :
  offset = 128 \/ offset = 192 ->
  add_prefix payload offset = Ok b ->
  exists x rest, b = x :: rest /\ offset <= byte.unsigned x < offset + 64.
Proof.
  intros Ho H. apply add_prefix_inv in H. destruct H as (p & Hp & ->).
  pose proof (py_len_nonneg payload) as Hn.
  pose proof (length_prefix_ok_range _ _ _ Hp) as Hfit.
  destruct (Z.lt_ge_cases (py_len payload) 56) as [Hshort|Hlong].
  - rewrite length_prefix_short in Hp by (destruct Ho; lia). inv Hp.
    eexists _, _. split; [reflexivity|].
    rewrite byte_of_Z_small by (destruct Ho; lia). lia.
  - rewrite length_prefix_long in Hp by (destruct Ho; lia). inv Hp.
    pose proof (long_length_size (py_len payload) ltac:(lia)) as Hs.
    eexists _, _. split; [reflexivity|].
    rewrite byte_of_Z_small by (destruct Ho; lia). lia.
Qed.

Lemma encode_raw_head (t : item) (b : bytes) :
  encode_raw t = Ok b ->
  exists x rest,
    b = x :: rest /\
    match t with
    | Atomic _ => byte.unsigned x < 192
    | Sequence _ => 192 <= byte.unsigned x
    | Other => False
    end.
Proof.
  destruct t as [b0|xs|]; intros H.
  - apply encode_raw_Atomic_cases in H.
    destruct H as [(x & -> & Hx & ->) | (_ & Hadd)].
    + exists x, []. split; [reflexivity|lia].
    + destruct (add_prefix_first_byte b0 128 b (or_introl eq_refl) Hadd)
        as (x & rest & -> & Hx).
      exists x, rest. split; [reflexivity|lia].
  - rewrite encode_raw_Sequence in H.
    destruct (join (map encode_raw xs)) as [payload|]; [|discriminate].
    cbn [bind] in H.
    destruct (add_prefix_first_byte payload 192 b (or_intror eq_refl) H)
      as (x & rest & -> & Hx).
    exists x, rest. split; [reflexivity|lia].
  - discriminate.
Qed.

(** X5: an encoding is never empty and its first byte tells a byte string
    from a list: it is below [0xC0] for a byte string and at least [0xC0]
    for a list. *)
Theorem encode_raw_first_byte (t : item) (b : bytes) :
  encode_raw t = Ok b ->
  exists x rest,
    b = x :: rest /\
    match t with
    | Atomic _ => byte.unsigned x < 192
    | Sequence _ => 192 <= byte.unsigned x
    | Other => False
    end.
Proof. apply encode_raw_head. Qed.

Lemma encode_raw_first_byte_witness :
  exists x rest,
    [Byte.xc1; Byte.x80] = x :: rest /\ 192 <= byte.unsigned x.
Proof.
  apply (encode_raw_first_byte (Sequence [Atomic []])).
  vm_compute. reflexivity.
Defined.

(** ** [decode] *)

Lemma consume_item_sound rlp start d e :
  consume_item rlp start = Ok (d, e) ->
  0 <= start -> e <= py_len rlp ->
  encode_raw (bare d) = Ok (py_slice rlp start e) /\
  rlp_of d = py_slice rlp start e.
Proof.
  unfold consume_item. intros H Hs He.
  destruct (consume_length_prefix rlp start) as [[[[p t] l] s]|] eqn:Ep;
    [|discriminate].
  cbn [bind] in H. apply consume_payload_inv in H. destruct H as [fuel H].
  exact (proj1 (decode_sound fuel) _ _ _ _ _ _ _ _ Hs Ep H He).
Qed.

(** X6: [decode] undoes [encode_raw].  The encoding of [t] decodes to [t]
    with or without [strict]; followed by further bytes it still decodes to
    [t] without [strict], and with [strict] it raises 'RLP string ends with
    n superfluous bytes' where [n] is the number of the further bytes. *)
Theorem decode_encode_raw (t : item) (b extra : bytes) :
  encode_raw t = Ok b ->
  (forall strict, decode b strict = Ok t) /\
  decode (b ++ extra) false = Ok t /\
  (extra <> [] ->
   decode (b ++ extra) true
     = Raise (DecodingError (SuperfluousBytes (py_len extra)))).
Proof.
  intros Hb.
  assert (G : forall post,
    exists d, consume_item (b ++ post) 0 = Ok (d, py_len b) /\ bare d = t).
  { intros post.
    destruct (roundtrip_item t b Hb [] post) as (fuel & d & Hd & Hbare & _).
    apply consume_item_run in Hd. exists d. split; [exact Hd|exact Hbare]. }
  repeat apply conj.
  - intros strict. destruct (G []) as (d & Hd & Hbare).
    rewrite app_nil_r in Hd. unfold decode. rewrite Hd, Z.eqb_refl.
    exact (f_equal Ok Hbare).
  - destruct (G extra) as (d & Hd & Hbare).
    unfold decode. rewrite Hd, andb_false_r. exact (f_equal Ok Hbare).
  - intros Hne. destruct (G extra) as (d & Hd & Hbare).
    unfold decode. rewrite Hd, py_len_app.
    assert (Hpos : 0 < py_len extra).
    { destruct extra; [congruence|]. rewrite py_len_cons.
      pose proof (py_len_nonneg extra). lia. }
    destruct (py_len b =? py_len b + py_len extra) eqn:E; [lia|].
    cbn [negb andb]. do 3 f_equal. lia.
Qed.

Lemma decode_encode_raw_witness :
  decode ([Byte.x80] ++ [Byte.xff]) true
  = Raise (DecodingError (SuperfluousBytes (py_len [Byte.xff]))).
Proof.
  apply (decode_encode_raw (Atomic []) [Byte.x80] [Byte.xff]).
  - vm_compute. reflexivity.
  - discriminate.
Defined.

Lemma decode_strict_inv b t :
  decode b true = Ok t ->
  exists d, consume_item b 0 = Ok (d, py_len b) /\ bare d = t.
Proof.
  unfold decode. intros H.
  destruct (consume_item b 0) as [[d e]|e] eqn:Ec.
  - destruct (e =? py_len b) eqn:E; [|discriminate].
    cbn [negb andb] in H. inv H. apply Z.eqb_eq in E. subst e.
    now exists d.
  - destruct e; discriminate.
Qed.

(** X7: strict decoding accepts only the canonical encoding: if
    [decode(b, strict=True)] returns [t] then [b] is [encode_raw(t)], so no
    two byte strings decode strictly to the same item. *)
Theorem decode_strict_canonical (b1 b2 : bytes) (t : item) :
  decode b1 true = Ok t ->
  encode_raw t = Ok b1 /\ (decode b2 true = Ok t -> b1 = b2).
Proof.
  assert (G : forall b, decode b true = Ok t -> encode_raw t = Ok b).
  { intros b H. apply decode_strict_inv in H. destruct H as (d & Hd & <-).
    destruct (consume_item_sound _ _ _ _ Hd (Z.le_refl 0) (Z.le_refl _))
      as [Henc _].
    now rewrite py_slice_all in Henc. }
  intros H1. split; [now apply G|].
  intros H2. apply G in H1. apply G in H2. congruence.
Qed.

Lemma decode_strict_canonical_witness :
  encode_raw (Atomic [Byte.x04; Byte.x00]) = Ok [Byte.x82; Byte.x04; Byte.x00].
Proof.
  apply (decode_strict_canonical [Byte.x82; Byte.x04; Byte.x00] []).
  vm_compute. reflexivity.
Defined.





(** ** The reader *)

(** X9: an item that [consume_item] returns starts inside the input and
    ends after its start: every call consumes at least one byte, which is
    what makes the loop over the children of a list terminate. *)
Theorem consume_item_advances (rlp : bytes) (start : Z) (d : decoded) (e : Z) :
  consume_item rlp start = Ok (d, e) -> start < py_len rlp /\ start < e.
Proof.
  intros H. apply consume_item_inv in H. destruct H as [fuel H].
  pose proof (consume_item_fuel_progress _ _ _ _ _ H) as Hadv.
  split; [|lia].
  unfold consume_item_fuel in H.
  destruct (consume_length_prefix rlp start) as [[[[p t] l] s]|] eqn:Ep;
    [|discriminate].
  now apply consume_length_prefix_progress in Ep.
Qed.

Lemma consume_item_advances_witness :
  0 < py_len [Byte.xc1; Byte.x80] /\ 0 < 2.
Proof.
  apply (consume_item_advances [Byte.xc1; Byte.x80] 0
           (DList [DBytes [] [Byte.x80]] [Byte.xc1; Byte.x80]) 2).
  vm_compute. reflexivity.
Defined.

Lemma decode_decorated fuel :
  (forall rlp q p t l s d e,
      0 <= q ->
      consume_length_prefix rlp q = Ok (p, t, l, s) ->
      consume_payload_fuel fuel rlp p s t l = Some (Ok (d, e)) ->
      e <= py_len rlp ->
      well_decorated d) /\
  (forall rlp end_ items list_rlp next d e,
      0 <= next ->
      consume_list_loop fuel rlp end_ items list_rlp next = Some (Ok (d, e)) ->
      end_ <= py_len rlp ->
      Forall well_decorated items ->
      Forall well_decorated (children_of d)).
Proof.
  induction fuel as [|fuel [IHp IHl]]; split.
  - intros rlp q p [|] l s d e Hq Hp H He; [|discriminate].
    destruct (proj1 (decode_sound 0) _ _ _ _ _ _ _ _ Hq Hp H He) as [Henc Hrlp].
    constructor; [now rewrite Henc, Hrlp|].
    rewrite consume_payload_fuel_bytes in H. inv H. constructor.
  - discriminate.
  - intros rlp q p t l s d e Hq Hp H He.
    destruct (proj1 (decode_sound (S fuel)) _ _ _ _ _ _ _ _ Hq Hp H He)
      as [Henc Hrlp].
    constructor; [now rewrite Henc, Hrlp|].
    destruct t.
    + rewrite consume_payload_fuel_bytes in H. inv H. constructor.
    + rewrite consume_payload_fuel_list in H.
      pose proof (consume_length_prefix_progress _ _ _ _ _ _ Hp) as (_ & _ & _ & Hs).
      specialize (Hs eq_refl).
      pose proof (consume_list_loop_end _ _ _ _ _ _ _ _ H) as [-> _].
      assert (Hs0 : 0 <= s) by lia.
      exact (IHl _ _ _ _ _ _ _ Hs0 H He (Forall_nil _)).
  - intros rlp end_ items list_rlp next d e Hn H He Hitems.
    rewrite consume_list_loop_S in H.
    destruct (next <? end_) eqn:E1.
    + destruct (consume_length_prefix rlp next) as [[[[p t] l] s]|] eqn:Ep;
        [|discriminate].
      destruct (consume_payload_fuel fuel rlp p s t l) as [[[item next']|]|] eqn:Ec;
        try discriminate.
      pose proof (consume_length_prefix_progress _ _ _ _ _ _ Ep) as (_ & Hl & Hs & _).
      pose proof (consume_payload_fuel_end _ _ _ _ _ _ _ _ Ec) as Hn'.
      pose proof (consume_list_loop_end _ _ _ _ _ _ _ _ H) as [-> Hne].
      assert (Hn0 : 0 <= next') by lia.
      assert (Hn1 : next' <= py_len rlp) by lia.
      apply (IHl _ _ _ _ _ _ _ Hn0 H He).
      apply Forall_app. split; [exact Hitems|].
      constructor; [|constructor].
      exact (IHp _ _ _ _ _ _ _ _ Hn Ep Ec Hn1).
    + destruct (end_ <? next) eqn:E2; [discriminate|].
      inv H. exact Hitems.
Qed.

(** X10: provenance of the decoded items.  When the item [consume_item]
    returns ends inside the input, the encoding attached to it is the slice
    of the input it was read from, and every node of the decoded item, at
    any depth, carries the encoding of its own bare item. *)
Theorem consume_item_decorated (rlp : bytes) (start : Z) (d : decoded) (e : Z) :
  consume_item rlp start = Ok (d, e) ->
  0 <= start -> e <= py_len rlp ->
  rlp_of d = py_slice rlp start e /\ well_decorated d.
Proof.
  intros H Hs He.
  split; [now apply (consume_item_sound _ _ _ _ H)|].
  unfold consume_item in H.
  destruct (consume_length_prefix rlp start) as [[[[p t] l] s]|] eqn:Ep;
    [|discriminate].
  cbn [bind] in H. apply consume_payload_inv in H. destruct H as [fuel H].
  exact (proj1 (decode_decorated fuel) _ _ _ _ _ _ _ _ Hs Ep H He).
Qed.

Lemma consume_item_decorated_witness :
  rlp_of (DList [DBytes [] [Byte.x80]] [Byte.xc1; Byte.x80])
    = py_slice [Byte.xc1; Byte.x80] 0 2 /\
  well_decorated (DList [DBytes [] [Byte.x80]] [Byte.xc1; Byte.x80]).
Proof.
  apply (consume_item_decorated [Byte.xc1; Byte.x80] 0).
  - vm_compute. reflexivity.
  - lia.
  - vm_compute. discriminate.
Defined.

(** ** Prefix framing, both ways *)

(** X11: [consume_length_prefix] reads back what [length_prefix] wrote.
    In front of a payload (which is not a single byte below 128 when it is
    a byte string), the prefix [length_prefix] builds for the length of the
    payload is read as that prefix, the type of the payload, its length and
    the position where it starts. *)
Theorem length_prefix_read_back
    (pre p payload post : bytes) (t : payload_type) :
  length_prefix (py_len payload) (prefix_offset t) = Ok p ->
  (t = TBytes -> forall x, payload = [x] -> 128 <= byte.unsigned x) ->
  consume_length_prefix (pre ++ p ++ payload ++ post) (py_len pre)
    = Ok (p, t, py_len payload, py_len pre + py_len p).
Proof. apply consume_length_prefix_framed. Qed.

Lemma length_prefix_read_back_witness :
  consume_length_prefix
    ([] ++ [Byte.xc1] ++ [Byte.x80] ++ []) (py_len (@nil byte))
  = Ok ([Byte.xc1], TList, py_len [Byte.x80],
        py_len (@nil byte) + py_len [Byte.xc1]).
Proof.
  apply (length_prefix_read_back [] [Byte.xc1] [Byte.x80] [] TList).
  - vm_compute. reflexivity.
  - discriminate.
Defined.

(** X12: a prefix [consume_length_prefix] accepts in front of an item that
    lies inside the input, unless it is the one-byte form, is the slice of
    the input up to the payload and is the prefix [length_prefix] writes for
    the announced length, which is below [2^64]. *)
Theorem consume_length_prefix_written
    (rlp p : bytes) (q l s : Z) (t : payload_type) :
  0 <= q ->
  consume_length_prefix rlp q = Ok (p, t, l, s) ->
  s + l <= py_len rlp ->
  q < s ->
  p = py_slice rlp q s /\
  length_prefix l (prefix_offset t) = Ok p /\
  0 <= l < 2 ^ 64.
Proof.
  intros Hq Hp Hin Hqs.
  pose proof (consume_length_prefix_progress _ _ _ _ _ _ Hp) as (_ & Hl & _ & _).
  destruct (consume_length_prefix_canonical _ _ _ _ _ _ Hq Hp Hin)
    as [(_ & _ & -> & _) | (_ & Hslice & Hpre & _)]; [lia|].
  repeat split; try assumption.
  eapply length_prefix_ok_range. exact Hpre.
Qed.

Lemma consume_length_prefix_written_witness :
  [Byte.xc1] = py_slice [Byte.xc1; Byte.x80] 0 1 /\
  length_prefix 1 (prefix_offset TList) = Ok [Byte.xc1] /\
  0 <= 1 < 2 ^ 64.
Proof.
  apply (consume_length_prefix_written [Byte.xc1; Byte.x80] [Byte.xc1] 0 1 1 TList).
  - lia.
  - vm_compute. reflexivity.
  - vm_compute. discriminate.
  - lia.
Defined.

(** ** Reads beyond the input *)

Lemma py_index_out {A : Type} (l : list A) (i : Z) :
  0 <= i -> py_len l <= i -> py_index l i = Raise IndexError.
Proof.
  intros Hi Hlen. rewrite py_index_nonneg by exact Hi.
  assert (H : nth_error l (Z.to_nat i) = None).
  { apply nth_error_None. unfold py_len in Hlen. lia. }
  now rewrite H.
Qed.

Lemma py_index_raise_inv {A : Type} (l : list A) (i : Z) (e : exn) :
  0 <= i -> py_index l i = Raise e -> py_len l <= i.
Proof.
  intros Hi H. rewrite py_index_nonneg in H by exact Hi.
  destruct (nth_error l (Z.to_nat i)) eqn:E; [discriminate|].
  apply nth_error_None in E. unfold py_len. lia.
Qed.

(** X13: at a position that is not negative, [consume_length_prefix]
    raises [IndexError] (which [decode] reports as 'RLP string too short')
    in two cases only: the position is at or beyond the end of the input, or
    the byte there is [0x81] and it is the last one.  A length field or a
    payload that extends beyond the input never raises it. *)
Theorem consume_length_prefix_IndexError (rlp : bytes) (start : Z) :
  0 <= start ->
  (consume_length_prefix rlp start = Raise IndexError <->
   py_len rlp <= start \/
   (py_index rlp start = Ok Byte.x81 /\ py_len rlp = start + 1)).
Proof.
  intros Hs. split.
  - intros H. unfold consume_length_prefix, SHORT_STRING in H.
    destruct (py_index rlp start) as [x0|e0] eqn:E0.
    + right. cbn [bind] in H.
      pose proof (py_index_Ok_lt _ _ _ E0) as Hlt.
      destruct (byte.unsigned x0 <? 128); [discriminate|].
      destruct (byte.unsigned x0 <? 128 + 56).
      * destruct (byte.unsigned x0 - 128 =? 1) eqn:C; [|discriminate].
        destruct (py_index rlp (start + 1)) as [x1|e1] eqn:E1.
        -- cbn [bind] in H. destruct (byte.unsigned x1 <? 128); discriminate.
        -- apply py_index_raise_inv in E1; [|lia].
           assert (Hx : x0 = Byte.x81).
           { apply byte.unsigned_inj. change (byte.unsigned Byte.x81) with 129.
             lia. }
           subst x0. split; [reflexivity|lia].
      * repeat break_if; discriminate.
    + left. eapply py_index_raise_inv; eassumption.
  - intros [Hout|[H0 Hlast]].
    + unfold consume_length_prefix. now rewrite py_index_out.
    + unfold consume_length_prefix. rewrite H0. cbn [bind].
      change (byte.unsigned Byte.x81) with 129. cbn.
      rewrite py_index_out by lia. reflexivity.
Qed.

Lemma consume_length_prefix_IndexError_witness :
  consume_length_prefix [Byte.x00; Byte.x81] 1 = Raise IndexError.
Proof.
  apply (consume_length_prefix_IndexError [Byte.x00; Byte.x81] 1); [lia|].
  right. split; vm_compute; reflexivity.
Defined.

(** ** [encode] and [decode] together *)

Lemma decode_after_encode_raw (t : item) (b : bytes) (strict : bool) :
  encode_raw t = Ok b -> decode b strict = Ok t.
Proof.
  intros Hb.
  destruct (roundtrip_item t b Hb [] []) as (fuel & d & Hd & Hbare & _).
  apply consume_item_run in Hd. cbn [app] in Hd.
  rewrite app_nil_r, py_len_nil in Hd.
  unfold decode. rewrite Hd. cbn [Z.add]. rewrite Z.eqb_refl.
  exact (f_equal Ok Hbare).
Qed.

(** X14: once [encode] has stored its result in a record, the next
    [encode] of that record without a sedes returns the same bytes from
    [_cached_rlp], whatever the serializers and the flags are, and leaves
    the record as it is. *)
Theorem encode_again
    (serialize serialize' : sedes -> pyobj -> result item)
    (truth truth' : sedes -> bool)
    (obj obj' : pyobj) (infer_serializer infer_serializer' cache' : bool)
    (r : bytes) :
  isinstance_Serializable obj = true ->
  encode serialize truth obj None infer_serializer true = (Ok r, obj') ->
  encode serialize' truth' obj' None infer_serializer' cache' = (Ok r, obj').
Proof.
  intros Hrec H.
  destruct obj as [| | | | | |cls xs cached]; try discriminate.
  cbn [isinstance_Serializable] in Hrec.
  unfold encode in H. cbn [isinstance_Serializable is_None get_cached_rlp] in H.
  rewrite Hrec in H.
  assert (Hit : encode_item serialize truth (PyInstance cls xs cached) None
                  infer_serializer (true && true) = (Ok r, obj') ->
                encode serialize' truth' obj' None infer_serializer' cache'
                  = (Ok r, obj')).
  { unfold encode_item. cbn [andb].
    destruct (it <- serialized serialize truth (PyInstance cls xs cached) None
                      infer_serializer ;; encode_raw it) as [r'|] eqn:E;
      intros G; inv G.
    assert (Hne : exists x rest, r = x :: rest).
    { destruct (serialized serialize truth (PyInstance cls xs cached) None
                  infer_serializer) as [it|]; [|discriminate].
      cbn [bind] in E. apply encode_raw_head in E.
      destruct E as (x & rest & -> & _). now eexists _, _. }
    destruct Hne as (x & rest & ->).
    unfold encode. cbn [set_cached_rlp isinstance_Serializable is_None
                        get_cached_rlp].
    now rewrite Hrec. }
  destruct cached as [[|x c]|].
  - now apply Hit.
  - inv H. unfold encode.
    cbn [isinstance_Serializable is_None get_cached_rlp]. now rewrite Hrec.
  - now apply Hit.
Qed.

Lemma encode_again_witness :
  encode (fun _ _ => Raise TypeError) (fun _ => false)
    (PyInstance {| cls_is_sedes := true; cls_is_sequence := true;
                   cls_is_serializable := true |} [] (Some [Byte.xc0]))
    None false false
  = (Ok [Byte.xc0],
     PyInstance {| cls_is_sedes := true; cls_is_sequence := true;
                   cls_is_serializable := true |} [] (Some [Byte.xc0])).
Proof.
  apply (encode_again (fun _ o => Ok (as_item o)) (fun _ _ => Raise TypeError)
           (fun _ => true) (fun _ => false)
           (PyInstance {| cls_is_sedes := true; cls_is_sequence := true;
                          cls_is_serializable := true |} [] None)
           _ true false false [Byte.xc0]).
  - reflexivity.
  - vm_compute. reflexivity.
Defined.

(** X15: without a sedes and with [infer_serializer] false, what [encode]
    returns for an object that is not a record decodes, with or without
    [strict], to that object seen as an item; the object is not changed. *)
Theorem decode_encode
    (serialize : sedes -> pyobj -> result item) (truth : sedes -> bool)
    (obj obj' : pyobj) (cache strict : bool) (b : bytes) :
  isinstance_Serializable obj = false ->
  encode serialize truth obj None false cache = (Ok b, obj') ->
  obj' = obj /\ decode b strict = Ok (as_item obj).
Proof.
  intros Hrec H. unfold encode in H. rewrite Hrec in H.
  unfold encode_item, serialized in H. cbn [bind] in H.
  destruct (encode_raw (as_item obj)) as [r|] eqn:E; inv H.
  split; [reflexivity|]. now apply decode_after_encode_raw.
Qed.

Lemma decode_encode_witness :
  PyList [PyBytes [Byte.x61]; PyList []] = PyList [PyBytes [Byte.x61]; PyList []] /\
  decode [Byte.xc2; Byte.x61; Byte.xc0] true
    = Ok (as_item (PyList [PyBytes [Byte.x61]; PyList []])).
Proof.
  apply (decode_encode (fun _ _ => Raise TypeError) (fun _ => true)
           (PyList [PyBytes [Byte.x61]; PyList []]) _ true true).
  - reflexivity.
  - vm_compute. reflexivity.
Defined.

(** ** [infer_sedes] on sequences *)

Lemma collect_ok {A B : Type} (f : A -> result B) (xs : list A) (ys : list B) :
  collect (map f xs) = Ok ys -> Forall2 (fun x y => f x = Ok y) xs ys.
Proof.
  revert ys. induction xs as [|x xs IH]; intros ys H.
  - cbn in H. inv H. constructor.
  - cbn [map collect] in H.
    destruct (f x) as [y|] eqn:Ex; [|discriminate].
    destruct (collect (map f xs)) as [ys'|] eqn:Er; [|discriminate].
    cbn [bind] in H. inv H. constructor; [exact Ex|now apply IH].
Qed.

Lemma collect_raises {A B : Type} (f : A -> result B) (xs : list A) (e : exn) :
  collect (map f xs) = Raise e -> exists x, In x xs /\ f x = Raise e.
Proof.
  induction xs as [|x xs IH]; intros H.
  - discriminate.
  - cbn [map collect] in H.
    destruct (f x) as [y|ex] eqn:Ex.
    + destruct (collect (map f xs)) as [ys'|er] eqn:Er; [discriminate|].
      cbn [bind] in H. inv H.
      destruct (IH eq_refl) as (z & Hz & Hez).
      exists z. split; [now right|exact Hez].
    + cbn [bind] in H. inv H. exists x. split; [now left|exact Ex].
Qed.


(** X16: for a list, [infer_sedes] returns a [List] sedes with one element
    per element of the list, in order, each the sedes inferred for that
    element; it fails exactly when the inference fails for one of the
    elements, with the exception of the first that fails in order. *)
Theorem infer_sedes_list (xs : list pyobj) :
  (forall s, infer_sedes (PyList xs) = Ok s ->
     exists elements,
       s = SedesList elements /\
       Forall2 (fun x e => infer_sedes x = Ok e) xs elements) /\
  (forall e, infer_sedes (PyList xs) = Raise e ->
     exists x, In x xs /\ infer_sedes x = Raise e) /\
  (forall elements,
     Forall2 (fun x e => infer_sedes x = Ok e) xs elements ->
     infer_sedes (PyList xs) = Ok (SedesList elements)).
Proof.
  assert (E : infer_sedes (PyList xs) =
              (elements <- collect (map infer_sedes xs) ;;
               Ok (SedesList elements))) by reflexivity.
  repeat apply conj.
  - intros s H. rewrite E in H.
    destruct (collect (map infer_sedes xs)) as [es|] eqn:Ec; [|discriminate].
    cbn [bind] in H. inv H. exists es. split; [reflexivity|].
    now apply collect_ok.
  - intros e H. rewrite E in H.
    destruct (collect (map infer_sedes xs)) as [es|e'] eqn:Ec; [discriminate|].
    cbn [bind] in H. inv H. now apply collect_raises.
  - intros elements H. rewrite E.
    assert (Hc : collect (map infer_sedes xs) = Ok elements).
    { induction H as [|x e xs' es Hx Hrest IH]; [reflexivity|].
      cbn [map collect]. rewrite Hx. cbn [bind].
      rewrite IH by reflexivity. reflexivity. }
    now rewrite Hc.
Qed.

Lemma infer_sedes_list_witness :
  exists x, In x [PyBytes []; PyInt (-1); PyNone] /\
            infer_sedes x = Raise TypeError.
Proof.
  apply (proj1 (proj2 (infer_sedes_list [PyBytes []; PyInt (-1); PyNone]))).
  vm_compute. reflexivity.
Defined.



(** ** [_apply_rlp_cache] *)

Lemma cobj_nested_ind (P : cobj -> Prop) :
  (forall has cached seq subs, Forall P subs -> P (CObj has cached seq subs)) ->
  forall obj, P obj.
Proof.
  intros H. fix IH 1. intros [has cached seq subs].
  apply H. induction subs as [|sub subs IHsubs]; constructor;
    [apply IH|exact IHsubs].
Qed.

Lemma pairwise_nil f subs : pairwise f subs [] = subs.
Proof. destruct subs; reflexivity. Qed.

Lemma for_sub_aligned items subs :
  Forall2 shaped items subs ->
  Forall applies_to subs ->
  forall more,
    for_sub _apply_rlp_cache subs
      (SplitList (map (fun i => rlp_items (snd (_split_rlp_from_item i))) items
                  ++ more))
    = Done (pairwise warmed subs items, SplitList more).
Proof.
  induction 1 as [|item sub items subs Hs Hrest IH]; intros Hall more.
  - reflexivity.
  - inversion Hall as [|sub' subs' Hsub Hsubs]; subst sub' subs'.
    destruct (Hsub item Hs) as [Hleaf Hseq].
    cbn [map app for_sub pairwise].
    destruct (is_sequence sub) eqn:E.
    + cbn [pop0]. rewrite (Hseq eq_refl). now rewrite (IH Hsubs more).
    + rewrite (Hleaf eq_refl). now rewrite (IH Hsubs more).
Qed.

Lemma apply_rlp_cache_shaped : forall obj, applies_to obj.
Proof.
  induction obj as [has cached seq subs IH] using cobj_nested_ind.
  intros d Hd. inversion Hd as [item rlp h c s | items rlp h c s Hsubs];
    subst; cbn [is_sequence]; split; intros Hseq; try discriminate.
  - intros more. cbn. now rewrite pairwise_nil.
  - cbn [_split_rlp_from_item snd rlp_items _apply_rlp_cache pop0].
    rewrite map_map.
    pose proof (for_sub_aligned items subs Hsubs IH []) as Hloop.
    rewrite app_nil_r in Hloop. rewrite Hloop. reflexivity.
Qed.

(** X18: attaching the encodings after decoding.  For an object that
    mirrors the decoded item (a sequence exactly where the item is a list,
    element by element), [_apply_rlp_cache] on the second component of
    [_split_rlp_from_item] gives every node that has the attribute
    [_cached_rlp] the encoding attached to the node of the decoded item at
    the same place, changes nothing else, and uses up the whole list.  When
    the decoded item is a single byte string, the second component is a byte
    string and the call fails on [pop]. *)
Theorem apply_rlp_cache_aligned (d : decoded) (obj : cobj) :
  shaped d obj ->
  _apply_rlp_cache obj (rlp_items (snd (_split_rlp_from_item d))) =
    match d with
    | DList _ _ => Done (warmed obj d, SplitList [])
    | DBytes _ _ => Fails BytesHasNoPop
    end.
Proof.
  intros Hd. destruct (apply_rlp_cache_shaped obj d Hd) as [_ Hseq].
  inversion Hd as [item rlp h c s | items rlp h c s Hsubs]; subst.
  - reflexivity.
  - exact (Hseq eq_refl).
Qed.

Lemma apply_rlp_cache_aligned_witness :
  _apply_rlp_cache
    (CObj true None true [CObj false None false []; CObj true None true []])
    (rlp_items (snd (_split_rlp_from_item
       (DList [DBytes [Byte.x61] [Byte.x61]; DList [] [Byte.xc0]]
              [Byte.xc2; Byte.x61; Byte.xc0]))))
  = Done (CObj true (Some (SplitBytes [Byte.xc2; Byte.x61; Byte.xc0])) true
            [CObj false None false [];
             CObj true (Some (SplitBytes [Byte.xc0])) true []],
          SplitList []).
Proof.
  apply (apply_rlp_cache_aligned
           (DList [DBytes [Byte.x61] [Byte.x61]; DList [] [Byte.xc0]]
                  [Byte.xc2; Byte.x61; Byte.xc0])
           (CObj true None true
              [CObj false None false []; CObj true None true []])).
  repeat constructor.
Defined.

(** ** [decode] with a sedes *)

(** X19: [decode] with a sedes on an input that decodes strictly.  If the
    deserialized object mirrors the decoded item, a decoded list comes back
    as the object in which every node that has [_cached_rlp] holds the
    encoding attached to its node, and every such encoding is the raw
    encoding of the bare item of that node.  For a decoded byte string the
    object is returned untouched when it has no [_cached_rlp], and the call
    fails on [pop] when it has one. *)
Theorem decode_sedes_warms
    (deserialize : item -> option cobj)
    (b : bytes) (d : decoded) (obj : cobj) (strict : bool) :
  consume_item b 0 = Ok (d, py_len b) ->
  deserialize (fst (_split_rlp_from_item d)) = Some obj ->
  shaped d obj ->
  decode_sedes deserialize b strict =
    match d with
    | DList _ _ => Returns (warmed obj d)
    | DBytes _ _ =>
        if hasattr_cached_rlp obj then PopRaises BytesHasNoPop else Returns obj
    end /\
  well_decorated d.
Proof.
  intros Hc Hdes Hs. split.
  - unfold decode_sedes. rewrite Hc, Z.eqb_refl. cbn [negb andb].
    destruct (_split_rlp_from_item d) as [it per] eqn:Esplit.
    cbn [fst] in Hdes. rewrite Hdes.
    pose proof (apply_rlp_cache_shaped obj d Hs) as [_ Hseq].
    rewrite Esplit in Hseq. cbn [snd] in Hseq.
    inversion Hs as [item rlp h c s | items rlp h c s Hsubs]; subst.
    + cbn [is_sequence hasattr_cached_rlp orb].
      destruct h; [|reflexivity].
      cbn in Esplit. inv Esplit. reflexivity.
    + cbn [is_sequence orb]. now rewrite (Hseq eq_refl).
  - unfold consume_item in Hc.
    destruct (consume_length_prefix b 0) as [[[[p t] l] s]|] eqn:Ep;
      [|discriminate].
    cbn [bind] in Hc. apply consume_payload_inv in Hc. destruct Hc as [fuel Hc].
    exact (proj1 (decode_decorated fuel) _ _ _ _ _ _ _ _
             (Z.le_refl 0) Ep Hc (Z.le_refl _)).
Qed.

Lemma decode_sedes_warms_witness :
  decode_sedes (fun _ => Some (CObj true None true [CObj true None false []]))
    [Byte.xc1; Byte.x61] true
  = Returns (CObj true (Some (SplitBytes [Byte.xc1; Byte.x61])) true
               [CObj true (Some (SplitBytes [Byte.x61])) false []]).
Proof.
  apply (decode_sedes_warms
           (fun _ => Some (CObj true None true [CObj true None false []]))
           [Byte.xc1; Byte.x61]
           (DList [DBytes [Byte.x61] [Byte.x61]] [Byte.xc1; Byte.x61])
           (CObj true None true [CObj true None false []]) true).
  - vm_compute. reflexivity.
  - reflexivity.
  - repeat constructor.
Defined.

(** ** Termination of the reader *)

(** X20: [consume_payload] terminates on every input, well-formed or not:
    a number of steps bounded by twice the number of bytes left after
    [start] (plus two) yields its result, more steps do not change it, and
    the result is never the exhaustion of the steps. *)
Theorem consume_payload_terminates
    (rlp prefix : bytes) (start : Z) (type_ : payload_type) (length : Z) :
  exists r,
    consume_payload_fuel (fuel_at rlp start) rlp prefix start type_ length
      = Some r /\
    (forall fuel, (fuel_at rlp start <= fuel)%nat ->
       consume_payload_fuel fuel rlp prefix start type_ length = Some r) /\
    consume_payload rlp prefix start type_ length = r /\
    r <> Raise RecursionError.
Proof.
  destruct (consume_payload_fuel (fuel_at rlp start) rlp prefix start type_ length)
    as [r|] eqn:E.
  - exists r. split; [reflexivity|]. split; [|split].
    + intros fuel Hle.
      exact (proj1 (fuel_monotone _) _ _ _ _ _ _ fuel E Hle).
    + eapply consume_payload_run. exact E.
    + intros ->. now apply (proj1 (no_recursion_error _)) in E.
  - now apply consume_payload_fuel_enough in E.
Qed.
